(** * Boggle solver: a shallow embedding of [boggle_solver.py]

    The Python class [Boggle] is embedded as pure functions over
    - a small universe of Python values ([pyval]) for the caller-supplied
      grid and dictionary, which the code inspects with [isinstance],
      [len], indexing and iteration;
    - an [outcome] monad: a call returns a value, raises a Python
      exception, or exhausts the call-depth budget ([fuel]) that stands for
      the interpreter stack;
    - explicit state passing for the two mutable objects of the search:
      the list [self.solution_words] and the set [visited].

    [str] values are Stdlib strings over 8-bit characters; [str.upper]
    maps [a]..[z] to [A]..[Z] and leaves every other character alone.
    The call-depth budget is a parameter of the model: the interpreter's
    own recursion limit is not part of it. *)

From Stdlib Require Import ZArith Ascii String Lia.
From stdpp Require Import base gmap sets list strings.

Local Open Scope Z_scope.

Set Warnings "-register-all,-clear-no-such-hyp".

(** ** Python values, exceptions and outcomes *)

Inductive pyval : Type :=
  | PyNone
  | PyBool (b : bool)
  | PyInt (n : Z)
  | PyStr (s : string)
  | PyList (items : list pyval).

Inductive exn : Type := TypeError | IndexError | AttributeError | KeyError.

Inductive outcome (A : Type) : Type :=
  | Ok (a : A)
  | Raise (e : exn)
  | OutOfFuel.
Arguments Ok {A} a.
Arguments Raise {A} e.
Arguments OutOfFuel {A}.

#[global] Instance outcome_ret : MRet outcome := @Ok.
#[global] Instance outcome_bind : MBind outcome := λ A B f m,
  match m with
  | Ok a => f a
  | Raise e => Raise e
  | OutOfFuel => OutOfFuel
  end.

(** [for x in l: body] over a state [s], stopping at the first exception. *)
Fixpoint for_each {A St : Type} (l : list A) (body : A → St → outcome St)
    (s : St) : outcome St :=
  match l with
  | [] => Ok s
  | x :: l' => s' ← body x s; for_each l' body s'
  end.

(** ** Built-ins used by the solver *)

Definition ascii_upper (c : ascii) : ascii :=
  let n := nat_of_ascii c in
  if (97 <=? n)%nat && (n <=? 122)%nat then ascii_of_nat (n - 32) else c.

(** [s.upper()] *)
Fixpoint upper (s : string) : string :=
  match s with
  | EmptyString => EmptyString
  | String c s' => String (ascii_upper c) (upper s')
  end.

(** [len(s)] for a [str] *)
Definition str_len (s : string) : Z := Z.of_nat (String.length s).

Fixpoint str_take (n : nat) (s : string) : string :=
  match n, s with
  | S n', String c s' => String c (str_take n' s')
  | _, _ => EmptyString
  end.

(** [s[:i]]; a negative [i] counts from the end *)
Definition str_slice_to (s : string) (i : Z) : string :=
  if i <? 0 then str_take (Z.to_nat (str_len s + i)) s
  else str_take (Z.to_nat i) s.

(** [range(lo, hi)] *)
Definition py_range (lo hi : Z) : list Z :=
  (λ k : nat, lo + Z.of_nat k) <$> seq 0 (Z.to_nat (hi - lo)).

(** truth value of an object, as tested by [not x] *)
Definition truthy (v : pyval) : bool :=
  match v with
  | PyNone => false
  | PyBool b => b
  | PyInt n => negb (n =? 0)
  | PyStr s => negb (String.eqb s "")
  | PyList items => match items with [] => false | _ => true end
  end.

(** [isinstance(v, list)] and [isinstance(v, str)] *)
Definition isinstance_list (v : pyval) : bool :=
  match v with PyList _ => true | _ => false end.
Definition isinstance_str (v : pyval) : bool :=
  match v with PyStr _ => true | _ => false end.

(** [len(v)] *)
Definition py_len (v : pyval) : outcome Z :=
  match v with
  | PyStr s => Ok (str_len s)
  | PyList items => Ok (Z.of_nat (length items))
  | _ => Raise TypeError
  end.

(** [l[i]] on a sequence of length [length l]: negative indices wrap once,
    anything else out of range raises [IndexError]. *)
Definition seq_getitem {A : Type} (l : list A) (i : Z) : outcome A :=
  let n := Z.of_nat (length l) in
  let j := if i <? 0 then i + n else i in
  if (0 <=? j) && (j <? n) then
    match l !! Z.to_nat j with
    | Some x => Ok x
    | None => Raise IndexError
    end
  else Raise IndexError.

Fixpoint str_chars (s : string) : list pyval :=
  match s with
  | EmptyString => []
  | String c s' => PyStr (String c EmptyString) :: str_chars s'
  end.

(** [v[i]] *)
Definition py_getitem (v : pyval) (i : Z) : outcome pyval :=
  match v with
  | PyList items => seq_getitem items i
  | PyStr s => seq_getitem (str_chars s) i
  | _ => Raise TypeError
  end.

(** the items produced by [for x in v] *)
Definition py_iter (v : pyval) : outcome (list pyval) :=
  match v with
  | PyList items => Ok items
  | PyStr s => Ok (str_chars s)
  | _ => Raise TypeError
  end.

(** [v.upper()] *)
Definition py_upper (v : pyval) : outcome string :=
  match v with
  | PyStr s => Ok (upper s)
  | _ => Raise AttributeError
  end.

(** [visited.remove(x)] *)
Definition set_remove (x : Z * Z) (visited : gset (Z * Z))
    : outcome (gset (Z * Z)) :=
  if bool_decide (x ∈ visited) then Ok (visited ∖ {[ x ]}) else Raise KeyError.

(** ** The [Boggle] object *)

Record Boggle : Type := mkBoggle {
  grid : option pyval;                (* [None] is Python's [None] *)
  dictionary : option (gset string);
  prefixes : gset string;
  solution_words : list string
}.

Definition with_solution (self : Boggle) (words : list string) : Boggle :=
  {| grid := grid self; dictionary := dictionary self;
     prefixes := prefixes self; solution_words := words |}.

(** [_validateGrid]: the row loop, then the function. *)
Fixpoint validate_rows (row_length : Z) (rows : list pyval) : outcome bool :=
  match rows with
  | [] => Ok true
  | row :: rest =>
      if negb (isinstance_list row) then Ok false else
      n ← py_len row;
      if negb (n =? row_length) then Ok false else
      cells ← py_iter row;
      if negb (forallb isinstance_str cells) then Ok false
      else validate_rows row_length rest
  end.

Definition _validateGrid (grid : pyval) : outcome bool :=
  if negb (truthy grid) || negb (isinstance_list grid) then Ok false else
  n ← py_len grid;
  if n =? 0 then Ok false else
  first ← py_getitem grid 0;
  row_length ← py_len first;
  rows ← py_iter grid;
  validate_rows row_length rows.

Definition _validateDictionary (dictionary : pyval) : outcome bool :=
  if negb (truthy dictionary) || negb (isinstance_list dictionary)
  then Ok false else
  words ← py_iter dictionary;
  Ok (forallb isinstance_str words).

Definition setGrid (self : Boggle) (g : pyval) : outcome Boggle :=
  valid ← _validateGrid g;
  if negb valid then
    Ok {| grid := None; dictionary := dictionary self;
          prefixes := prefixes self; solution_words := solution_words self |}
  else
    Ok {| grid := Some g; dictionary := dictionary self;
          prefixes := prefixes self; solution_words := solution_words self |}.

(** the prefixes [word[:i]] for [i] in [range(1, len(word) + 1)], added to
    [acc] *)
Definition add_prefixes (word : string) (acc : gset string) : gset string :=
  foldl (λ acc i, {[ str_slice_to word i ]} ∪ acc) acc
        (py_range 1 (str_len word + 1)).

Definition build_prefixes (words : gset string) : gset string :=
  set_fold add_prefixes ∅ words.

Definition setDictionary (self : Boggle) (d : pyval) : outcome Boggle :=
  valid ← _validateDictionary d;
  if negb valid then
    Ok {| grid := grid self; dictionary := None;
          prefixes := prefixes self; solution_words := solution_words self |}
  else
    entries ← py_iter d;
    uppers ← mapM py_upper entries;
    let words : gset string := list_to_set uppers in
    Ok {| grid := grid self; dictionary := Some words;
          prefixes := build_prefixes words;
          solution_words := solution_words self |}.

Definition getSolution (self : Boggle) : list string := solution_words self.

Definition solution (self : Boggle) : list string := getSolution self.

Definition _expandTile (tile : pyval) : outcome string :=
  tile_upper ← py_upper tile;
  if String.eqb tile_upper "QU" then Ok "QU"
  else if String.eqb tile_upper "ST" then Ok "ST"
  else if String.eqb tile_upper "IE" then Ok "IE"
  else Ok tile_upper.

Definition _getNeighbors (row col rows cols : Z) : list (Z * Z) :=
  dr ← [-1; 0; 1];
  dc ← [-1; 0; 1];
  if (dr =? 0) && (dc =? 0) then [] else
  let new_row := row + dr in
  let new_col := col + dc in
  if (0 <=? new_row) && (new_row <? rows) && (0 <=? new_col) && (new_col <? cols)
  then [(new_row, new_col)] else [].

(** [self.grid[row][col]], expanded *)
Definition tile_at (g : pyval) (row col : Z) : outcome string :=
  r ← py_getitem g row;
  cell ← py_getitem r col;
  _expandTile cell.

Definition self_grid (self : Boggle) : outcome pyval :=
  match grid self with Some g => Ok g | None => Raise TypeError end.

Definition self_dictionary (self : Boggle) : outcome (gset string) :=
  match dictionary self with Some d => Ok d | None => Raise TypeError end.

(** lines 201-204 of [_dfs]: record [new_word] when it is long enough, in
    the dictionary and not yet recorded *)
Definition record_word (self : Boggle) (new_word : string) : outcome Boggle :=
  if 3 <=? str_len new_word then
    d ← self_dictionary self;
    if bool_decide (new_word ∈ d) then
      if bool_decide (new_word ∉ solution_words self)
      then Ok (with_solution self (solution_words self ++ [new_word]))
      else Ok self
    else Ok self
  else Ok self.

(** [_dfs], with the prefix test of lines 197-199 under a switch: [prune =
    true] is the source; [prune = false] is the same search with that test
    removed.  [fuel] bounds the depth of nested calls.  The result is the
    object and the [visited] set as the call leaves them. *)
Fixpoint dfs_with (prune : bool) (fuel : nat) (self : Boggle) (row col : Z)
    (current_word : string) (visited : gset (Z * Z)) (rows cols : Z)
    {struct fuel} : outcome (Boggle * gset (Z * Z)) :=
  match fuel with
  | O => OutOfFuel
  | S fuel' =>
      g ← self_grid self;
      tile ← tile_at g row col;
      let new_word := current_word +:+ tile in
      if prune && negb (bool_decide (new_word ∈ prefixes self))
      then Ok (self, visited) else
      self ← record_word self new_word;
      let neighbors := _getNeighbors row col rows cols in
      for_each neighbors
        (λ next st,
           let '(self, visited) := st in
           if bool_decide (next ∉ visited) then
             let visited := {[ next ]} ∪ visited in
             st' ← dfs_with prune fuel' self next.1 next.2 new_word visited
                    rows cols;
             visited ← set_remove next st'.2;
             Ok (st'.1, visited)
           else Ok (self, visited))
        (self, visited)
  end.

Definition _dfs : nat → Boggle → Z → Z → string → gset (Z * Z) → Z → Z →
    outcome (Boggle * gset (Z * Z)) := dfs_with true.

(** the search of [_dfs] with the prefix test removed *)
Definition dfs_bruteforce : nat → Boggle → Z → Z → string → gset (Z * Z) →
    Z → Z → outcome (Boggle * gset (Z * Z)) := dfs_with false.

(** [_solve]: it takes one frame of the stack and hands the rest, and the
    switch, to the search; every starting cell gets a fresh [visited] set. *)
Definition solve_with (prune : bool) (fuel : nat) (self : Boggle)
    : outcome Boggle :=
  match fuel with
  | O => OutOfFuel
  | S fuel' =>
      match grid self, dictionary self with
      | Some g, Some _ =>
          let self := with_solution self [] in
          rows ← py_len g;
          first ← py_getitem g 0;
          cols ← py_len first;
          for_each (py_range 0 rows)
            (λ row self,
               for_each (py_range 0 cols)
                 (λ col self,
                    let visited : gset (Z * Z) := {[ (row, col) ]} ∪ ∅ in
                    st ← dfs_with prune fuel' self row col "" visited
                           rows cols;
                    Ok st.1)
                 self)
            self
      | _, _ => Ok (with_solution self [])
      end
  end.

Definition _solve : nat → Boggle → outcome Boggle := solve_with true.

(** the body of [__init__], lines 20-29 *)
Definition init_with (prune : bool) (fuel : nat) (g d : pyval)
    : outcome Boggle :=
  let self := {| grid := None; dictionary := None;
                 prefixes := ∅; solution_words := [] |} in
  self ← setGrid self g;
  self ← setDictionary self d;
  match grid self, dictionary self with
  | Some _, Some _ => solve_with prune fuel self
  | _, _ => Ok self
  end.

(** [Boggle(grid, dictionary)] with a stack of [fuel] nested calls below
    [__init__] *)
Definition __init__ : nat → pyval → pyval → outcome Boggle := init_with true.

(** [len(self.grid)] and [len(self.grid[0])], as [_solve] reads them *)
Definition grid_rows (g : pyval) : Z :=
  match py_len g with Ok n => n | _ => 0 end.

Definition grid_cols (g : pyval) : Z :=
  match first ← py_getitem g 0; py_len first with Ok n => n | _ => 0 end.

(** A stack deep enough for [_solve] and one [_dfs] frame per cell, plus
    one; [Boggle_new] is the expression [Boggle(grid, dictionary)]. *)
Definition stack_bound (g : pyval) : nat :=
  S (S (Z.to_nat (grid_rows g) * Z.to_nat (grid_cols g))).

Definition Boggle_new (g d : pyval) : outcome Boggle :=
  __init__ (stack_bound g) g d.

(** the expression [Boggle(grid, dictionary).getSolution()] *)
Definition found_words (g d : pyval) : outcome (list string) :=
  self ← Boggle_new g d; Ok (getSolution self).

(** the same construction with the brute-force search *)
Definition Boggle_bruteforce (g d : pyval) : outcome Boggle :=
  init_with false (stack_bound g) g d.

(** ** Vocabulary of the properties *)

(** a 2D list of [str] tiles and a list of [str] words, as Python values *)
Definition grid_of (tiles : list (list string)) : pyval :=
  PyList ((λ row, PyList (PyStr <$> row)) <$> tiles).

Definition words_of (ws : list string) : pyval := PyList (PyStr <$> ws).

(** a 2D list whose cells are arbitrary values *)
Definition grid2d (rows : list (list pyval)) : pyval :=
  PyList (PyList <$> rows).

Definition in_bounds (rows cols : Z) (c : Z * Z) : Prop :=
  0 ≤ c.1 < rows ∧ 0 ≤ c.2 < cols.

(** 8-directional adjacency of two distinct cells *)
Definition adjacent (a b : Z * Z) : Prop :=
  Z.abs (b.1 - a.1) ≤ 1 ∧ Z.abs (b.2 - a.2) ≤ 1 ∧ a ≠ b.

Fixpoint chain (p : list (Z * Z)) : Prop :=
  match p with
  | a :: p' =>
      match p' with
      | b :: _ => adjacent a b ∧ chain p'
      | [] => True
      end
  | [] => True
  end.

(** the expanded tile of a cell ([""] where the lookup fails) *)
Definition tile_of (g : pyval) (c : Z * Z) : string :=
  match tile_at g c.1 c.2 with Ok t => t | _ => "" end.

(** the expanded tiles along a path, concatenated *)
Fixpoint path_word (g : pyval) (p : list (Z * Z)) : outcome string :=
  match p with
  | [] => Ok ""
  | c :: p' =>
      t ← tile_at g c.1 c.2;
      w ← path_word g p';
      Ok (t +:+ w)
  end.

Definition word_along (g : pyval) (p : list (Z * Z)) : string :=
  foldr (λ c acc, tile_of g c +:+ acc) "" p.

(** a path of the game: cells of the grid, pairwise distinct, each
    adjacent to the next *)
Definition simple_path (rows cols : Z) (p : list (Z * Z)) : Prop :=
  NoDup p ∧ Forall (in_bounds rows cols) p ∧ chain p.

(** all cells of a [rows] x [cols] grid, in scan order *)
Definition cell_list (rows cols : Z) : list (Z * Z) :=
  row ← py_range 0 rows; col ← py_range 0 cols; [(row, col)].

Definition cells (rows cols : Z) : gset (Z * Z) :=
  list_to_set (cell_list rows cols).

Definition nonempty_str (v : pyval) : bool :=
  match v with PyStr s => negb (String.eqb s "") | _ => false end.

(** [g] is a non-empty list of lists, all as long as the first, whose cells
    all pass [cell_ok] *)
Definition rectangular_with (cell_ok : pyval → bool) (g : pyval) : bool :=
  match g with
  | PyList ((PyList first :: _) as rows) =>
      forallb (λ row,
                 match row with
                 | PyList cells =>
                     (length cells =? length first)%nat && forallb cell_ok cells
                 | _ => false
                 end) rows
  | _ => false
  end.

(** the grids and dictionaries that construction rejects *)
Definition invalid_grid (rows : list (list pyval)) : Prop :=
  rows = [] ∨
  (∃ r1 r2, r1 ∈ rows ∧ r2 ∈ rows ∧ length r1 ≠ length r2) ∨
  (∃ r cell, r ∈ rows ∧ cell ∈ r ∧ isinstance_str cell = false).

Definition invalid_dictionary (d : pyval) : Prop :=
  d = PyList [] ∨
  ∃ entries e, d = PyList entries ∧ e ∈ entries ∧ isinstance_str e = false.

(** the test of line 202 *)
Definition accepted (D : gset string) (x : string) : Prop :=
  3 ≤ str_len x ∧ x ∈ D.

(** [reach prune g D P rows cols c w V x]: a call of the search at cell [c]
    with accumulated word [w] and visited set [V] comes to record [x],
    either at [c] itself or below one of its unvisited neighbours. *)
Inductive reach (prune : bool) (g : pyval) (D P : gset string)
    (rows cols : Z) : Z * Z → string → gset (Z * Z) → string → Prop :=
  | reach_here c w V :
      (prune = true → w +:+ tile_of g c ∈ P) →
      accepted D (w +:+ tile_of g c) →
      reach prune g D P rows cols c w V (w +:+ tile_of g c)
  | reach_step c w V n x :
      (prune = true → w +:+ tile_of g c ∈ P) →
      n ∈ _getNeighbors c.1 c.2 rows cols →
      n ∉ V →
      reach prune g D P rows cols n (w +:+ tile_of g c) ({[ n ]} ∪ V) x →
      reach prune g D P rows cols c w V x.

(** the receiver of the search: a validated grid and a built lexicon *)
Definition searcher (g : pyval) (D P : gset string) (sol : list string)
    : Boggle :=
  {| grid := Some g; dictionary := Some D; prefixes := P;
     solution_words := sol |}.

(** ** Further vocabulary *)

(** [len(v)] is defined for [v] *)
Definition sized (v : pyval) : bool :=
  match v with PyStr _ | PyList _ => true | _ => false end.

(** the eight cells around a cell, in the order [_getNeighbors] visits
    them, and its bounds test *)
Definition around (row col : Z) : list (Z * Z) :=
  [(row - 1, col - 1); (row - 1, col); (row - 1, col + 1);
   (row, col - 1); (row, col + 1);
   (row + 1, col - 1); (row + 1, col); (row + 1, col + 1)].

Definition in_bounds_b (rows cols : Z) (c : Z * Z) : bool :=
  (0 <=? c.1) && (c.1 <? rows) && (0 <=? c.2) && (c.2 <? cols).

(** a board with every tile uppercased *)
Definition upper_tiles (tiles : list (list string)) : list (list string) :=
  (λ row : list string, upper <$> row) <$> tiles.

(** the object with another grid in place of its own *)
Definition regrid (g : pyval) (self : Boggle) : Boggle :=
  {| grid := Some g; dictionary := dictionary self;
     prefixes := prefixes self; solution_words := solution_words self |}.

(** a function applied to what an outcome returns *)
Definition outcome_map {A B : Type} (f : A → B) (x : outcome A) : outcome B :=
  match x with
  | Ok a => Ok (f a)
  | Raise e => Raise e
  | OutOfFuel => OutOfFuel
  end.

(** [main()]: the list it prints *)
Definition main : outcome (list string) :=
  mygame ← Boggle_new
    (grid_of [["A"; "B"; "C"; "D"]; ["E"; "F"; "G"; "H"];
              ["IE"; "J"; "K"; "L"]; ["A"; "B"; "C"; "D"]])
    (words_of ["ABEF"; "AFJIEEB"; "DGKD"; "DGKA"]);
  Ok (solution mygame).

(** * Properties *)

(** ** Strings *)

Lemma str_app_cons c a b : String c a +:+ b = String c (a +:+ b).
Proof. reflexivity. Qed.

Lemma str_app_nil_l a : "" +:+ a = a.
Proof. reflexivity. Qed.

Lemma str_app_nil_r a : a +:+ "" = a.
Proof. induction a as [|c a IH]; [done|]. by rewrite str_app_cons, IH. Qed.

Lemma str_app_assoc a b c : (a +:+ b) +:+ c = a +:+ (b +:+ c).
Proof.
  induction a as [|x a IH]; [done|]. by rewrite !str_app_cons, IH.
Qed.

Lemma str_length_app a b :
  String.length (a +:+ b) = (String.length a + String.length b)%nat.
Proof.
  induction a as [|x a IH]; [done|]. rewrite str_app_cons. simpl. by rewrite IH.
Qed.

Lemma str_app_eq_nil a b : a +:+ b = "" → a = "" ∧ b = "".
Proof. destruct a; [done|]. by rewrite str_app_cons. Qed.

Lemma str_length_pos a : a ≠ "" → (1 ≤ String.length a)%nat.
Proof. destruct a; [done|]. simpl. lia. Qed.

Lemma str_take_app a b : str_take (String.length a) (a +:+ b) = a.
Proof.
  induction a as [|x a IH]; [by destruct b|].
  rewrite str_app_cons. simpl. by rewrite IH.
Qed.

Lemma str_take_nonempty n s : (1 ≤ n)%nat → s ≠ "" → str_take n s ≠ "".
Proof. destruct n; [lia|]. by destruct s. Qed.

Lemma str_slice_to_nat s (n : nat) : str_slice_to s (Z.of_nat n) = str_take n s.
Proof.
  unfold str_slice_to. destruct (Z.ltb_spec (Z.of_nat n) 0); [lia|].
  by rewrite Nat2Z.id.
Qed.

(** ** Ranges, neighbours and cells *)

Lemma elem_of_py_range lo hi x : x ∈ py_range lo hi ↔ lo ≤ x < hi.
Proof.
  unfold py_range. rewrite list_elem_of_fmap. split.
  - intros (k & -> & Hk). apply elem_of_seq in Hk. lia.
  - intros H. exists (Z.to_nat (x - lo)). split; [lia|].
    apply elem_of_seq. lia.
Qed.

Lemma length_py_range lo hi : length (py_range lo hi) = Z.to_nat (hi - lo).
Proof. unfold py_range. by rewrite length_fmap, length_seq. Qed.

Lemma elem_of_getNeighbors row col rows cols n :
  n ∈ _getNeighbors row col rows cols ↔
  adjacent (row, col) n ∧ in_bounds rows cols n.
Proof.
  destruct n as [r c]. unfold _getNeighbors, adjacent, in_bounds.
  rewrite list_elem_of_bind. cbn [fst snd]. split.
  - intros (dr & Hin & Hdr). apply list_elem_of_bind in Hin.
    destruct Hin as (dc & Hin & Hdc).
    destruct ((dr =? 0) && (dc =? 0)) eqn:Hz; [by apply elem_of_nil in Hin|].
    destruct ((0 <=? row + dr) && (row + dr <? rows) && (0 <=? col + dc)
              && (col + dc <? cols)) eqn:Hb; [|by apply elem_of_nil in Hin].
    apply list_elem_of_singleton in Hin. injection Hin as -> ->.
    apply andb_false_iff in Hz.
    repeat (apply andb_true_iff in Hb; destruct Hb as [Hb ?]).
    assert (dr = -1 ∨ dr = 0 ∨ dr = 1) as Hdr'.
    { rewrite !elem_of_cons in Hdr. rewrite elem_of_nil in Hdr. tauto. }
    assert (dc = -1 ∨ dc = 0 ∨ dc = 1) as Hdc'.
    { rewrite !elem_of_cons in Hdc. rewrite elem_of_nil in Hdc. tauto. }
    repeat split; try lia.
    intros Heq. injection Heq as ? ?. destruct Hz as [Hz|Hz]; lia.
  - intros ((Hr & Hc & Hne) & Hbr & Hbc).
    exists (r - row). split.
    + apply list_elem_of_bind. exists (c - col). split.
      * destruct ((r - row =? 0) && (c - col =? 0)) eqn:Hz.
        { apply andb_true_iff in Hz. destruct Hz. exfalso. apply Hne.
          f_equal; lia. }
        replace (row + (r - row)) with r by lia.
        replace (col + (c - col)) with c by lia.
        destruct ((0 <=? r) && (r <? rows) && (0 <=? c) && (c <? cols)) eqn:Hb.
        { apply list_elem_of_singleton. done. }
        exfalso. repeat (apply andb_false_iff in Hb; destruct Hb as [Hb|Hb]);
          lia.
      * rewrite !elem_of_cons. lia.
    + rewrite !elem_of_cons. lia.
Qed.

Lemma elem_of_cell_list rows cols c :
  c ∈ cell_list rows cols ↔ in_bounds rows cols c.
Proof.
  destruct c as [r c]. unfold cell_list, in_bounds.
  rewrite list_elem_of_bind. cbn [fst snd]. split.
  - intros (r' & Hin & Hr). apply list_elem_of_bind in Hin.
    destruct Hin as (c' & Hin & Hc). apply list_elem_of_singleton in Hin.
    injection Hin as -> ->. apply elem_of_py_range in Hr, Hc. lia.
  - intros [Hr Hc]. exists r. split; [|apply elem_of_py_range; lia].
    apply list_elem_of_bind. exists c.
    split; [by apply list_elem_of_singleton|apply elem_of_py_range; lia].
Qed.

Lemma elem_of_cells rows cols c : c ∈ cells rows cols ↔ in_bounds rows cols c.
Proof. unfold cells. by rewrite elem_of_list_to_set, elem_of_cell_list. Qed.

Lemma size_list_to_set_le (l : list (Z * Z)) :
  (size (list_to_set l : gset (Z * Z)) ≤ length l)%nat.
Proof.
  induction l as [|x l IH].
  - rewrite list_to_set_nil, size_empty. done.
  - rewrite list_to_set_cons. cbn [length].
    destruct (decide (x ∈ (list_to_set l : gset (Z * Z)))) as [Hin|Hin].
    + rewrite (subseteq_union_1_L {[x]} (list_to_set l)); [lia|].
      by apply singleton_subseteq_l.
    + rewrite size_union by set_solver. rewrite size_singleton. lia.
Qed.

Lemma length_bind_const {A B : Type} (f : A → list B) (l : list A) (k : nat) :
  (∀ x, length (f x) = k) → length (l ≫= f) = (length l * k)%nat.
Proof.
  intros Hf. induction l as [|x l IH]; [done|].
  rewrite bind_cons, length_app, IH, Hf. simpl. lia.
Qed.

Lemma length_cell_list rows cols :
  length (cell_list rows cols) = (Z.to_nat rows * Z.to_nat cols)%nat.
Proof.
  unfold cell_list.
  rewrite (length_bind_const _ _ (Z.to_nat cols)).
  - rewrite length_py_range. f_equal. lia.
  - intros r. rewrite (length_bind_const _ _ 1%nat) by done.
    rewrite length_py_range. lia.
Qed.

Lemma size_cells rows cols :
  (size (cells rows cols) ≤ Z.to_nat rows * Z.to_nat cols)%nat.
Proof.
  unfold cells. rewrite <- length_cell_list. apply size_list_to_set_le.
Qed.

(** ** Outcomes *)

Lemma bind_Ok {A B : Type} (m : outcome A) (f : A → outcome B) (b : B) :
  m ≫= f = Ok b → ∃ a, m = Ok a ∧ f a = Ok b.
Proof. destruct m as [a| |]; [|done..]. intros H. by exists a. Qed.

Lemma Ok_bind {A B : Type} (a : A) (f : A → outcome B) : Ok a ≫= f = f a.
Proof. reflexivity. Qed.

Lemma seq_getitem_Ok {A : Type} (l : list A) (i : Z) :
  0 ≤ i < Z.of_nat (length l) →
  ∃ x, seq_getitem l i = Ok x ∧ l !! Z.to_nat i = Some x.
Proof.
  intros Hi. unfold seq_getitem.
  destruct (Z.ltb_spec i 0); [lia|].
  destruct (Z.leb_spec 0 i); [|lia].
  destruct (Z.ltb_spec i (Z.of_nat (length l))); [|lia]. simpl.
  destruct (l !! Z.to_nat i) as [x|] eqn:Hx; [by exists x|].
  apply lookup_ge_None in Hx. lia.
Qed.

(** ** Validation *)

Lemma forallb_isinstance_str cells :
  forallb isinstance_str cells = true → ∃ ss, cells = PyStr <$> ss.
Proof.
  induction cells as [|v cells IH]; simpl; [by exists []|].
  intros [Hv Hc]%andb_true_iff. destruct (IH Hc) as [ss ->].
  destruct v as [| | |s|]; try done. by exists (s :: ss).
Qed.

Lemma forallb_isinstance_str_fmap ss :
  forallb isinstance_str (PyStr <$> ss) = true.
Proof. induction ss as [|s ss IH]; [done|]. simpl. exact IH. Qed.

Lemma validate_rows_true n rows :
  validate_rows n rows = Ok true →
  ∃ tiles, rows = (λ row, PyList (PyStr <$> row)) <$> tiles ∧
           Forall (λ row : list string, Z.of_nat (length row) = n) tiles.
Proof.
  induction rows as [|row rows IH]; simpl; [by exists []|].
  destruct row as [| | | |items]; simpl; try done.
  destruct (Z.eqb_spec (Z.of_nat (length items)) n) as [Hn|]; simpl; [|done].
  destruct (forallb isinstance_str items) eqn:Hcells; simpl; [|done].
  intros Hrest. destruct (IH Hrest) as (tiles & -> & Hall).
  destruct (forallb_isinstance_str _ Hcells) as [ss ->].
  exists (ss :: tiles). split; [done|]. constructor; [|done].
  by rewrite length_fmap in Hn.
Qed.

Lemma validate_rows_grid_of n tiles :
  Forall (λ row : list string, Z.of_nat (length row) = n) tiles →
  validate_rows n ((λ row, PyList (PyStr <$> row)) <$> tiles) = Ok true.
Proof.
  induction 1 as [|row tiles Hrow _ IH]; [done|]. simpl.
  rewrite length_fmap, Hrow, Z.eqb_refl, forallb_isinstance_str_fmap. simpl.
  exact IH.
Qed.

(** What [_validateGrid] accepts: a non-empty list of lists of [str], all of
    the length of the first. *)
Lemma validateGrid_true g :
  _validateGrid g = Ok true →
  ∃ tiles cols, g = grid_of tiles ∧ tiles ≠ [] ∧
                Forall (λ row : list string, length row = cols) tiles.
Proof.
  unfold _validateGrid. destruct g as [| | | |items]; simpl; try done;
    try (by destruct b); try (by destruct (negb (n =? 0)));
    try (by destruct (negb (String.eqb s ""))).
  destruct items as [|first rest]; simpl; [done|].
  unfold seq_getitem. simpl.
  destruct (Z.ltb_spec 0 (Z.pos (Pos.of_succ_nat (length rest)))); [|lia].
  simpl. intros (n & Hn & Hrows)%bind_Ok.
  destruct (validate_rows_true n (first :: rest) Hrows) as (tiles & Heq & Hall).
  destruct tiles as [|row tiles]; [done|].
  exists (row :: tiles), (length row). unfold grid_of. rewrite <- Heq.
  split; [done|]. split; [done|].
  injection Heq as -> _. simpl in Hn. injection Hn as <-.
  rewrite length_fmap in Hall. eapply Forall_impl; [exact Hall|].
  simpl. intros; lia.
Qed.

Lemma validateGrid_grid_of tiles cols :
  tiles ≠ [] → Forall (λ row : list string, length row = cols) tiles →
  _validateGrid (grid_of tiles) = Ok true.
Proof.
  intros Hne Hall. destruct tiles as [|row tiles]; [done|].
  unfold _validateGrid, grid_of. simpl. unfold seq_getitem. simpl.
  destruct (Z.ltb_spec 0 (Z.pos (Pos.of_succ_nat
    (length ((λ row, PyList (PyStr <$> row)) <$> tiles))))); [|lia].
  simpl. apply (validate_rows_grid_of _ (row :: tiles)).
  rewrite length_fmap. eapply Forall_impl; [exact Hall|]. simpl.
  intros r ->. by inversion Hall; subst.
Qed.

Lemma validateDictionary_true d :
  _validateDictionary d = Ok true → ∃ ws, d = words_of ws ∧ ws ≠ [].
Proof.
  unfold _validateDictionary. destruct d as [| | | |items]; simpl; try done;
    try (by destruct b); try (by destruct (negb (n =? 0)));
    try (by destruct (negb (String.eqb s ""))).
  destruct items as [|w rest]; [done|]. cbn -[forallb].
  intros [= Hall]. destruct (forallb_isinstance_str (w :: rest) Hall) as [ss Hss].
  exists ss. unfold words_of. rewrite Hss. split; [done|]. by destruct ss.
Qed.

Lemma validateDictionary_words_of ws :
  ws ≠ [] → _validateDictionary (words_of ws) = Ok true.
Proof.
  intros Hne. unfold _validateDictionary, words_of.
  assert (truthy (PyList (PyStr <$> ws)) = true) as -> by (by destruct ws).
  simpl. by rewrite forallb_isinstance_str_fmap.
Qed.

(** ** The grid as the search reads it *)

Lemma grid_rows_grid_of tiles :
  grid_rows (grid_of tiles) = Z.of_nat (length tiles).
Proof. unfold grid_rows, grid_of. simpl. by rewrite length_fmap. Qed.

Lemma grid_cols_grid_of tiles cols :
  tiles ≠ [] → Forall (λ row : list string, length row = cols) tiles →
  grid_cols (grid_of tiles) = Z.of_nat cols.
Proof.
  intros Hne Hall. destruct tiles as [|row tiles]; [done|].
  inversion Hall as [|? ? Hrow _]; subst.
  unfold grid_cols, grid_of. simpl. unfold seq_getitem. simpl.
  destruct (Z.ltb_spec 0 (Z.pos (Pos.of_succ_nat
    (length ((λ row, PyList (PyStr <$> row)) <$> tiles))))); [|lia].
  simpl. by rewrite length_fmap.
Qed.

Lemma expandTile_str s : ∃ t, _expandTile (PyStr s) = Ok t.
Proof.
  unfold _expandTile. simpl.
  destruct (String.eqb (upper s) "QU"); [by eexists|].
  destruct (String.eqb (upper s) "ST"); [by eexists|].
  destruct (String.eqb (upper s) "IE"); by eexists.
Qed.

Lemma tile_at_grid_of tiles cols c :
  Forall (λ row : list string, length row = cols) tiles →
  in_bounds (Z.of_nat (length tiles)) (Z.of_nat cols) c →
  tile_at (grid_of tiles) c.1 c.2 = Ok (tile_of (grid_of tiles) c).
Proof.
  intros Hall [Hr Hc]. unfold tile_of.
  enough (∃ t, tile_at (grid_of tiles) c.1 c.2 = Ok t) as [t ->] by done.
  unfold tile_at, grid_of. simpl.
  destruct (seq_getitem_Ok ((λ row, PyList (PyStr <$> row)) <$> tiles) c.1)
    as (row & -> & Hrow); [by rewrite length_fmap|].
  simpl. rewrite list_lookup_fmap in Hrow.
  destruct (tiles !! Z.to_nat c.1) as [ss|] eqn:Hss; [|done].
  simpl in Hrow. injection Hrow as <-. simpl.
  assert (length ss = cols) as Hlen.
  { rewrite Forall_forall in Hall. apply Hall.
    by eapply list_elem_of_lookup_2. }
  destruct (seq_getitem_Ok (PyStr <$> ss) c.2) as (cell & -> & Hcell);
    [by rewrite length_fmap, Hlen|].
  simpl. rewrite list_lookup_fmap in Hcell.
  destruct (ss !! Z.to_nat c.2) as [s|]; [|done]. simpl in Hcell.
  injection Hcell as <-. apply expandTile_str.
Qed.

(** ** The lexicon *)

Lemma mapM_py_upper ws : mapM py_upper (PyStr <$> ws) = Ok (upper <$> ws).
Proof.
  induction ws as [|w ws IH]; [done|].
  change (mapM py_upper (PyStr <$> w :: ws))
    with (y ← py_upper (PyStr w); k ← mapM py_upper (PyStr <$> ws);
          mret (y :: k)).
  by rewrite IH.
Qed.

Lemma elem_of_foldl_add (f : Z → string) (l : list Z) (acc : gset string) x :
  x ∈ foldl (λ acc i, {[ f i ]} ∪ acc) acc l ↔
  x ∈ acc ∨ ∃ i, i ∈ l ∧ x = f i.
Proof.
  revert acc. induction l as [|i l IH]; intros acc; simpl.
  - split; [by left|]. intros [H|(i & Hi & _)]; [done|].
    by apply elem_of_nil in Hi.
  - rewrite IH, elem_of_union, elem_of_singleton. split.
    + intros [[->|H]|(j & Hj & ->)]; [right|by left|right].
      * exists i. split; [by left|done].
      * exists j. split; [by right|done].
    + intros [H|(j & Hj & ->)]; [by left; right|].
      apply elem_of_cons in Hj. destruct Hj as [->|Hj]; [by left; left|].
      right. by exists j.
Qed.

Lemma elem_of_add_prefixes word acc x :
  x ∈ add_prefixes word acc ↔
  x ∈ acc ∨ ∃ n : nat, (1 ≤ n ≤ String.length word)%nat ∧ x = str_take n word.
Proof.
  unfold add_prefixes. rewrite elem_of_foldl_add. unfold str_len.
  split; (intros [H|H]; [by left|right]).
  - destruct H as (i & Hi & ->). apply elem_of_py_range in Hi.
    exists (Z.to_nat i). split; [lia|].
    rewrite <- (Z2Nat.id i) at 1 by lia. apply str_slice_to_nat.
  - destruct H as (n & Hn & ->). exists (Z.of_nat n).
    split; [apply elem_of_py_range; lia|]. by rewrite str_slice_to_nat.
Qed.

(** [prefixes] holds exactly the prefixes of lengths [1..len] of the words *)
Lemma elem_of_build_prefixes (W : gset string) x :
  x ∈ build_prefixes W ↔
  ∃ word (n : nat), word ∈ W ∧ (1 ≤ n ≤ String.length word)%nat ∧
                    x = str_take n word.
Proof.
  unfold build_prefixes.
  apply (set_fold_ind_L (λ (r : gset string) (X : gset string),
    x ∈ r ↔ ∃ word (n : nat), word ∈ X ∧ (1 ≤ n ≤ String.length word)%nat ∧
                              x = str_take n word)).
  - split; [set_solver|]. intros (word & n & Hw & _). set_solver.
  - intros word X r Hnew IH. rewrite elem_of_add_prefixes, IH. split.
    + intros [(w & n & Hw & Hn)|(n & Hn)].
      * exists w, n. split; [set_solver|done].
      * exists word, n. split; [set_solver|done].
    + intros (w & n & Hw & Hn). apply elem_of_union in Hw.
      destruct Hw as [Hw|Hw].
      * apply elem_of_singleton in Hw. subst w. right. by exists n.
      * left. by exists w, n.
Qed.

(** every non-empty initial segment of a stored word is a stored prefix *)
Lemma build_prefixes_closed (W : gset string) x y z :
  x ∈ W → x = y +:+ z → y ≠ "" → y ∈ build_prefixes W.
Proof.
  intros Hx -> Hy. apply elem_of_build_prefixes.
  exists (y +:+ z), (String.length y). split; [done|].
  split; [|by rewrite str_take_app].
  rewrite str_length_app. pose proof (str_length_pos y Hy). lia.
Qed.

Lemma setDictionary_words_of self ws :
  ws ≠ [] →
  setDictionary self (words_of ws) =
  Ok {| grid := grid self;
        dictionary := Some (list_to_set (upper <$> ws));
        prefixes := build_prefixes (list_to_set (upper <$> ws));
        solution_words := solution_words self |}.
Proof.
  intros Hne. unfold setDictionary.
  rewrite (validateDictionary_words_of ws Hne). simpl.
  by rewrite mapM_py_upper.
Qed.

(** ** Loops *)

Lemma for_each_inv {A St : Type} (Inv : list A → St → Prop)
    (body : A → St → outcome St) (l : list A) :
  (∀ done x s, x ∈ l → Inv done s →
     ∃ s', body x s = Ok s' ∧ Inv (done ++ [x]) s') →
  ∀ done s, Inv done s →
  ∃ s', for_each l body s = Ok s' ∧ Inv (done ++ l) s'.
Proof.
  induction l as [|x l IH]; intros Hstep done s Hs.
  - exists s. by rewrite app_nil_r.
  - destruct (Hstep done x s) as (s1 & Hx & Hs1); [by left|done|].
    destruct (IH (λ done y s Hy, Hstep done y s (list_elem_of_further _ _ _ Hy))
                 (done ++ [x]) s1 Hs1) as (s' & Hl & Hs').
    exists s'. simpl. rewrite Hx. simpl. split; [done|].
    by rewrite <- app_assoc in Hs'.
Qed.

Lemma for_each_Ok_inv {A St : Type} (I : St → Prop)
    (body : A → St → outcome St) (l : list A) :
  (∀ x s s', I s → body x s = Ok s' → I s') →
  ∀ s s', I s → for_each l body s = Ok s' → I s'.
Proof.
  intros Hstep. induction l as [|x l IH]; intros s s' Hs; simpl.
  - by intros [= <-].
  - intros (s1 & Hx & Hl)%bind_Ok. eauto.
Qed.

Lemma for_each_mono {A St : Type} (body1 body2 : A → St → outcome St)
    (l : list A) :
  (∀ x s s', body1 x s = Ok s' → body2 x s = Ok s') →
  ∀ s s', for_each l body1 s = Ok s' → for_each l body2 s = Ok s'.
Proof.
  intros Hstep. induction l as [|x l IH]; intros s s'; simpl; [done|].
  intros (s1 & Hx & Hl)%bind_Ok. rewrite (Hstep _ _ _ Hx). simpl. eauto.
Qed.

(** [loop_invariant Inv as pat] runs the [for_each] of the goal under the
    invariant [Inv]: first the step, then the start, then the goal with the
    loop's result destructed by [pat]. *)
Tactic Notation "loop_invariant" constr(Inv) "as" simple_intropattern(pat) :=
  let Hstep := fresh "Hstep" in
  let Hinit := fresh "Hinit" in
  match goal with
  | |- context [for_each ?l ?b ?s] =>
      assert (∀ done x st, x ∈ l → Inv done st →
                ∃ st', b x st = Ok st' ∧ Inv (done ++ [x]) st') as Hstep;
      [|assert (Inv [] s) as Hinit;
        [|destruct (for_each_inv Inv b l Hstep [] s Hinit) as pat]]
  end.

(** ** The recursive search *)

Lemma dfs_with_S prune fuel self row col current_word visited rows cols :
  dfs_with prune (S fuel) self row col current_word visited rows cols =
  (g ← self_grid self;
   tile ← tile_at g row col;
   let new_word := current_word +:+ tile in
   if prune && negb (bool_decide (new_word ∈ prefixes self))
   then Ok (self, visited) else
   self ← record_word self new_word;
   for_each (_getNeighbors row col rows cols)
     (λ next st,
        let '(self, visited) := st in
        if bool_decide (next ∉ visited) then
          let visited := {[ next ]} ∪ visited in
          st' ← dfs_with prune fuel self next.1 next.2 new_word visited
                 rows cols;
          visited ← set_remove next st'.2;
          Ok (st'.1, visited)
        else Ok (self, visited))
     (self, visited)).
Proof. reflexivity. Qed.

Lemma set_remove_added (n : Z * Z) (V : gset (Z * Z)) :
  n ∉ V → set_remove n ({[ n ]} ∪ V) = Ok V.
Proof.
  intros Hn. unfold set_remove. rewrite bool_decide_eq_true_2 by set_solver.
  f_equal. set_solver.
Qed.

(** A call that returns leaves [visited] as it found it: the pruned return
    touches nothing, and each loop iteration removes what it added. *)
Lemma dfs_with_visited prune fuel :
  ∀ self row col w V rows cols self' V',
    dfs_with prune fuel self row col w V rows cols = Ok (self', V') → V' = V.
Proof.
  induction fuel as [|fuel IH]; intros self row col w V rows cols self' V';
    [done|].
  rewrite dfs_with_S. intros (g & _ & H)%bind_Ok.
  apply bind_Ok in H. destruct H as (tile & _ & H). cbv zeta in H.
  destruct (prune && negb (bool_decide (w +:+ tile ∈ prefixes self)));
    [by injection H as _ <-|].
  apply bind_Ok in H. destruct H as (self1 & _ & H).
  apply (for_each_Ok_inv (λ st, st.2 = V)) in H; [done| |done].
  intros n [s1 V1] [s2 V2] HV1 Hbody. simpl in HV1. subst V1.
  destruct (bool_decide (n ∉ V)) eqn:Hn; [|by injection Hbody as _ <-].
  apply bool_decide_eq_true_1 in Hn.
  apply bind_Ok in Hbody. destruct Hbody as ([s3 V3] & Hcall & Hrm).
  apply IH in Hcall. subst V3. simpl in Hrm.
  rewrite set_remove_added in Hrm by done. by injection Hrm as _ <-.
Qed.

(** more stack never changes what a call returns *)
Lemma dfs_with_fuel_S prune fuel :
  ∀ self row col w V rows cols r,
    dfs_with prune fuel self row col w V rows cols = Ok r →
    dfs_with prune (S fuel) self row col w V rows cols = Ok r.
Proof.
  induction fuel as [|fuel IH]; intros self row col w V rows cols r; [done|].
  rewrite (dfs_with_S prune (S fuel)), (dfs_with_S prune fuel).
  intros (g & -> & H)%bind_Ok. rewrite Ok_bind.
  apply bind_Ok in H. destruct H as (tile & -> & H). rewrite Ok_bind.
  cbv zeta in H |- *.
  destruct (prune && negb (bool_decide (w +:+ tile ∈ prefixes self)));
    [done|].
  apply bind_Ok in H. destruct H as (self1 & -> & H). rewrite Ok_bind.
  revert H. apply for_each_mono. intros n [s1 V1] [s2 V2].
  destruct (bool_decide (n ∉ V1)); [|done].
  intros (st & Hcall & Hrm)%bind_Ok. by rewrite (IH _ _ _ _ _ _ _ _ Hcall).
Qed.

Lemma dfs_with_fuel_le prune fuel fuel' self row col w V rows cols r :
  (fuel ≤ fuel')%nat →
  dfs_with prune fuel self row col w V rows cols = Ok r →
  dfs_with prune fuel' self row col w V rows cols = Ok r.
Proof.
  induction 1 as [|fuel' _ IH]; [done|]. intros H.
  by apply dfs_with_fuel_S, IH.
Qed.

Section search.
Context (g : pyval) (D P : gset string) (rows cols : Z).
Hypothesis Htile :
  ∀ c, in_bounds rows cols c → tile_at g c.1 c.2 = Ok (tile_of g c).

Lemma record_word_spec sol new_word :
  ∃ sol', record_word (searcher g D P sol) new_word = Ok (searcher g D P sol') ∧
          (NoDup sol → NoDup sol') ∧
          ∀ x, x ∈ sol' ↔ x ∈ sol ∨ (x = new_word ∧ accepted D new_word).
Proof.
  unfold record_word, accepted.
  destruct (Z.leb_spec 3 (str_len new_word)) as [Hlen|Hlen].
  - simpl. case_bool_decide as HD.
    + case_bool_decide as Hnew.
      * exists (sol ++ [new_word]). split; [done|]. split.
        { intros Hnd. apply NoDup_app. split; [done|].
          split; [|apply NoDup_singleton].
          intros x Hx ->%list_elem_of_singleton. done. }
        intros x. rewrite elem_of_app, list_elem_of_singleton. naive_solver.
      * exists sol. split; [by destruct (searcher g D P sol)|].
        split; [done|]. intros x. split; [by left|].
        by intros [H|[-> _]].
    + exists sol. split; [done|]. split; [done|]. naive_solver.
  - exists sol. split; [done|]. split; [done|].
    intros x. split; [by left|]. intros [H|[_ [? _]]]; [done|lia].
Qed.

Lemma measure_decreases (n : Z * Z) (V : gset (Z * Z)) (fuel : nat) :
  in_bounds rows cols n → n ∉ V →
  (size (cells rows cols ∖ V) < S fuel)%nat →
  (size (cells rows cols ∖ ({[ n ]} ∪ V)) < fuel)%nat.
Proof.
  intros Hin Hn Hsize.
  assert (cells rows cols ∖ ({[ n ]} ∪ V) ⊂ cells rows cols ∖ V) as Hsub.
  { apply elem_of_cells in Hin. set_solver. }
  apply subset_size in Hsub. lia.
Qed.

(** The search from an in-grid cell, with a stack deeper than the number of
    unvisited cells, returns; it restores [visited], keeps the solution
    list free of duplicates, and adds exactly the words it [reach]es. *)
Lemma dfs_with_spec prune fuel :
  ∀ c w V sol,
    in_bounds rows cols c →
    (size (cells rows cols ∖ V) < fuel)%nat →
    ∃ sol',
      dfs_with prune fuel (searcher g D P sol) c.1 c.2 w V rows cols =
        Ok (searcher g D P sol', V) ∧
      (NoDup sol → NoDup sol') ∧
      ∀ x, x ∈ sol' ↔ x ∈ sol ∨ reach prune g D P rows cols c w V x.
Proof.
  induction fuel as [|fuel IH]; intros c w V sol Hc Hfuel; [lia|].
  rewrite dfs_with_S.
  change (self_grid (searcher g D P sol)) with (Ok g).
  rewrite Ok_bind, (Htile c Hc), Ok_bind.
  cbv zeta. change (prefixes (searcher g D P sol)) with P.
  destruct (prune && negb (bool_decide (w +:+ tile_of g c ∈ P))) eqn:Hprune.
  { exists sol. split; [done|]. split; [done|].
    intros x. split; [by left|]. intros [H|H]; [done|].
    apply andb_true_iff in Hprune. destruct Hprune as [-> Hnot].
    apply negb_true_iff, bool_decide_eq_false_1 in Hnot.
    exfalso. inversion H; subst; auto. }
  assert (prune = true → w +:+ tile_of g c ∈ P) as Hpre.
  { intros ->. simpl in Hprune. apply negb_false_iff in Hprune.
    by apply bool_decide_eq_true_1 in Hprune. }
  destruct (record_word_spec sol (w +:+ tile_of g c))
    as (sol1 & -> & Hnd1 & Hsol1).
  rewrite Ok_bind.
  pose (Inv := λ (done : list (Z * Z)) (st : Boggle * gset (Z * Z)),
    ∃ s', st = (searcher g D P s', V) ∧ (NoDup sol → NoDup s') ∧
      ∀ x, x ∈ s' ↔
           (x ∈ sol1 ∨
            ∃ n, n ∈ done ∧ (n ∉ V) ∧
                 reach prune g D P rows cols n (w +:+ tile_of g c)
                       ({[ n ]} ∪ V) x)).
  loop_invariant Inv as (st & Hloop & s' & -> & Hnd' & Hs').
  - intros done n st Hn (s' & -> & Hnd' & Hs').
    apply elem_of_getNeighbors in Hn. destruct Hn as [_ Hn].
    destruct (bool_decide (n ∉ V)) eqn:HnV;
      [apply bool_decide_eq_true_1 in HnV|apply bool_decide_eq_false_1 in HnV].
    + destruct (IH n (w +:+ tile_of g c) ({[ n ]} ∪ V) s' Hn)
        as (s2 & Hcall & Hnd2 & Hs2); [by apply measure_decreases|].
      cbv zeta. rewrite Hcall, Ok_bind. simpl.
      rewrite set_remove_added by done. rewrite Ok_bind.
      eexists. split; [done|]. exists s2. split; [done|].
      split; [by auto|]. intros x. rewrite Hs2, Hs'. split.
      * intros [[H|(m & Hm & HmV & Hr)]|H]; [by left| |].
        { right. exists m. split; [|done]. apply elem_of_app. by left. }
        right. exists n. split; [|done]. apply elem_of_app. right. by left.
      * intros [H|(m & Hm & HmV & Hr)]; [by left; left|].
        apply elem_of_app in Hm. destruct Hm as [Hm|Hm].
        { left. right. by exists m. }
        apply list_elem_of_singleton in Hm. subst m. by right.
    + eexists. split; [done|]. exists s'. split; [done|]. split; [done|].
      intros x. rewrite Hs'. split.
      * intros [H|(m & Hm & HmV & Hr)]; [by left|]. right. exists m.
        split; [|done]. apply elem_of_app. by left.
      * intros [H|(m & Hm & HmV & Hr)]; [by left|]. right. exists m.
        split; [|done]. apply elem_of_app in Hm. destruct Hm as [Hm|Hm]; [done|].
        apply list_elem_of_singleton in Hm. subst m.
        by apply dec_stable in HnV.
  - exists sol1. split; [done|]. split; [done|]. intros x.
    split; [by left|]. intros [H|(n & Hn & _)]; [done|].
    by apply elem_of_nil in Hn.
  - exists s'. split; [exact Hloop|]. split; [done|].
    intros x. rewrite Hs', Hsol1. rewrite app_nil_l. split.
    + intros [[H|[-> Hacc]]|(n & Hn & HnV & Hr)]; [by left| |].
      * right. by apply reach_here.
      * right. by eapply reach_step.
    + intros [H|H]; [by left; left|]. inversion H; subst.
      * left. right. done.
      * right. eauto.
Qed.

End search.

Lemma solve_with_searcher prune fuel g D P sol0 :
  solve_with prune (S fuel) (searcher g D P sol0) =
  (rows ← py_len g;
   first ← py_getitem g 0;
   cols ← py_len first;
   for_each (py_range 0 rows)
     (λ row self,
        for_each (py_range 0 cols)
          (λ col self,
             let visited : gset (Z * Z) := {[ (row, col) ]} ∪ ∅ in
             st ← dfs_with prune fuel self row col "" visited rows cols;
             Ok st.1)
          self)
     (searcher g D P [])).
Proof. reflexivity. Qed.

Section solve.
Context (g first : pyval) (D P : gset string) (rows cols : Z).
Hypothesis Htile :
  ∀ c, in_bounds rows cols c → tile_at g c.1 c.2 = Ok (tile_of g c).
Hypothesis Hrows : py_len g = Ok rows.
Hypothesis Hfirst : py_getitem g 0 = Ok first.
Hypothesis Hcols : py_len first = Ok cols.

(** [_solve] with a stack deeper than the number of cells returns the words
    reached from some starting cell, each once. *)
Lemma solve_with_spec prune fuel sol0 :
  (Z.to_nat rows * Z.to_nat cols < fuel)%nat →
  ∃ sol',
    solve_with prune (S fuel) (searcher g D P sol0) = Ok (searcher g D P sol') ∧
    NoDup sol' ∧
    ∀ x, x ∈ sol' ↔
         ∃ c, in_bounds rows cols c ∧
              reach prune g D P rows cols c "" {[ c ]} x.
Proof.
  intros Hfuel. rewrite solve_with_searcher.
  rewrite Hrows, Ok_bind, Hfirst, Ok_bind, Hcols, Ok_bind.
  pose (Inv := λ (done : list Z) (st : Boggle),
    ∃ s, st = searcher g D P s ∧ NoDup s ∧
      ∀ x, x ∈ s ↔
           ∃ c, c.1 ∈ done ∧ 0 ≤ c.2 < cols ∧
                reach prune g D P rows cols c "" {[ c ]} x).
  loop_invariant Inv as (st & Hloop & s' & -> & Hnd' & Hs').
  - intros done r st Hr (s & -> & Hnd & Hs). apply elem_of_py_range in Hr.
    pose (Inv' := λ (done' : list Z) (st : Boggle),
      ∃ s', st = searcher g D P s' ∧ NoDup s' ∧
        ∀ x, x ∈ s' ↔
             (x ∈ s ∨ ∃ col, col ∈ done' ∧
                reach prune g D P rows cols (r, col) "" {[ (r, col) ]} x)).
    loop_invariant Inv' as (st & Hloop & s' & -> & Hnd' & Hs').
    + intros done' col st Hcol (s' & -> & Hnd' & Hs').
      apply elem_of_py_range in Hcol. cbv zeta. rewrite union_empty_r_L.
      destruct (dfs_with_spec g D P rows cols Htile prune fuel (r, col) ""
                  {[ (r, col) ]} s') as (s2 & Hcall & Hnd2 & Hs2).
      { split; simpl; lia. }
      { pose proof (size_cells rows cols) as Hsize.
        pose proof (subseteq_size (cells rows cols ∖ {[ (r, col) ]})
                      (cells rows cols)) as Hsub.
        assert (size (cells rows cols ∖ {[(r, col)]}) ≤ size (cells rows cols))%nat
          by (apply Hsub; set_solver).
        lia. }
      cbn [fst snd] in Hcall. rewrite Hcall, Ok_bind.
      eexists. split; [done|]. exists s2.
      split; [done|]. split; [by auto|]. intros x. rewrite Hs2, Hs'. split.
      * intros [[H|(m & Hm & Hr')]|H]; [by left| |].
        { right. exists m. split; [|done]. apply elem_of_app. by left. }
        right. exists col. split; [|done]. apply elem_of_app. right. by left.
      * intros [H|(m & Hm & Hr')]; [by left; left|].
        apply elem_of_app in Hm. destruct Hm as [Hm|Hm].
        { left. right. by exists m. }
        apply list_elem_of_singleton in Hm. subst m. by right.
    + exists s. split; [done|]. split; [done|]. intros x.
      split; [by left|]. intros [H|(m & Hm & _)]; [done|].
      by apply elem_of_nil in Hm.
    + rewrite app_nil_l in Hs'. eexists. split; [exact Hloop|]. exists s'.
      split; [done|]. split; [done|]. intros x. rewrite Hs', Hs. split.
      * intros [(c & Hc1 & Hc2 & Hreach)|(col & Hcol & Hreach)].
        { exists c. split; [|done]. apply elem_of_app. by left. }
        exists (r, col). simpl. apply elem_of_py_range in Hcol.
        split; [|split; [lia|done]]. apply elem_of_app. right. by left.
      * intros (c & Hc1 & Hc2 & Hreach). apply elem_of_app in Hc1.
        destruct Hc1 as [Hc1|Hc1]; [left; by exists c|].
        apply list_elem_of_singleton in Hc1. right. exists c.2.
        split; [apply elem_of_py_range; lia|].
        destruct c as [c1 c2]. simpl in *. by subst c1.
  - exists []. split; [done|]. split; [constructor|]. intros x. split.
    + by intros ?%elem_of_nil.
    + intros (c & Hc & _). by apply elem_of_nil in Hc.
  - rewrite app_nil_l in Hs'. exists s'. split; [exact Hloop|].
    split; [done|]. intros x. rewrite Hs'. unfold in_bounds. split.
    + intros (c & Hc1 & Hc2 & Hreach). apply elem_of_py_range in Hc1.
      exists c. split; [lia|done].
    + intros (c & [Hc1 Hc2] & Hreach). exists c.
      split; [apply elem_of_py_range; lia|done].
Qed.

End solve.

(** ** Reached words and paths *)

Lemma word_along_cons g c q :
  word_along g (c :: q) = tile_of g c +:+ word_along g q.
Proof. reflexivity. Qed.

Lemma reach_bruteforce prune g D P rows cols c w V x :
  reach prune g D P rows cols c w V x → reach false g D P rows cols c w V x.
Proof.
  induction 1 as [c w V _ Hacc|c w V n x _ Hn HnV _ IH].
  - by apply reach_here.
  - by eapply reach_step.
Qed.

Lemma reach_accepted prune g D P rows cols c w V x :
  reach prune g D P rows cols c w V x → accepted D x.
Proof. induction 1; done. Qed.

(** a reached word is spelled by the cell followed by fresh, distinct,
    chained cells of the grid *)
Lemma reach_path prune g D P rows cols c w V x :
  reach prune g D P rows cols c w V x →
  ∃ q, x = w +:+ word_along g (c :: q) ∧ chain (c :: q) ∧
       Forall (in_bounds rows cols) q ∧ NoDup q ∧ (∀ a, a ∈ q → a ∉ V).
Proof.
  induction 1 as [c w V _ Hacc|c w V n x _ Hn HnV _ IH].
  - exists []. rewrite word_along_cons. simpl. rewrite str_app_nil_r.
    split; [done|]. split; [done|]. split; [constructor|].
    split; [constructor|]. by intros a ?%elem_of_nil.
  - destruct IH as (q & -> & Hchain & Hin & Hnd & Hfresh).
    apply elem_of_getNeighbors in Hn. destruct Hn as [Hadj Hn].
    exists (n :: q). split; [|split; [|split; [|split]]].
    + rewrite (word_along_cons g c). by rewrite str_app_assoc.
    + split; [|done]. by destruct c.
    + by constructor.
    + constructor; [|done]. intros Hq. apply (Hfresh n Hq). set_solver.
    + intros a [->|Ha]%elem_of_cons; [done|].
      specialize (Hfresh a Ha). set_solver.
Qed.

(** conversely, such a path is searched, provided (under pruning) the
    accumulated word is never empty and [P] holds the non-empty initial
    segments of the words of [D] *)
Lemma path_reach prune g D P rows cols :
  (∀ x y z, x ∈ D → x = y +:+ z → y ≠ "" → y ∈ P) →
  ∀ q c w V,
    chain (c :: q) → Forall (in_bounds rows cols) q → NoDup q →
    (∀ a, a ∈ q → a ∉ V) →
    w +:+ tile_of g c ≠ "" →
    accepted D (w +:+ word_along g (c :: q)) →
    reach prune g D P rows cols c w V (w +:+ word_along g (c :: q)).
Proof.
  intros Hclosed. induction q as [|n q IH]; intros c w V Hchain Hin Hnd Hfresh
    Hne Hacc.
  - rewrite word_along_cons in *. simpl in *. rewrite str_app_nil_r in *.
    apply reach_here; [|done]. intros _.
    apply (Hclosed (w +:+ tile_of g c) _ ""); [by destruct Hacc| |done].
    by rewrite str_app_nil_r.
  - rewrite word_along_cons, <- str_app_assoc in *.
    destruct Hchain as [Hadj Hchain].
    apply Forall_cons in Hin. destruct Hin as [Hn Hin].
    apply NoDup_cons in Hnd. destruct Hnd as [Hnq Hnd].
    eapply reach_step.
    + intros _. eapply Hclosed; [by destruct Hacc|done|done].
    + apply elem_of_getNeighbors. split; [|done]. by destruct c.
    + apply Hfresh. by left.
    + apply IH; try done.
      * intros a Ha. assert (a ∉ V) by (apply Hfresh; by right).
        assert (a ≠ n) by (by intros ->). set_solver.
      * intros [? _]%str_app_eq_nil. done.
Qed.

(** leading cells whose tile expands to nothing can be dropped from a path *)
Lemma drop_empty_tiles g rows cols p :
  simple_path rows cols p → word_along g p ≠ "" →
  ∃ c q, simple_path rows cols (c :: q) ∧
         word_along g (c :: q) = word_along g p ∧ tile_of g c ≠ "".
Proof.
  induction p as [|a p IH]; intros (Hnd & Hin & Hchain) Hword; [done|].
  destruct (decide (tile_of g a = "")) as [Hempty|Hfull].
  - rewrite word_along_cons, Hempty, str_app_nil_l in Hword.
    destruct IH as (c & q & Hsimple & Heq & Hc); [|done|].
    + apply NoDup_cons in Hnd. apply Forall_cons in Hin.
      split; [by destruct Hnd|]. split; [by destruct Hin|].
      destruct p; [done|]. by destruct Hchain.
    + exists c, q. split; [done|]. split; [|done].
      by rewrite (word_along_cons g a), Hempty, str_app_nil_l.
  - by exists a, p.
Qed.

(** Pruning does not change which words are reached from the cells of the
    grid. *)
Lemma reach_prune_equiv g D P rows cols x :
  (∀ x y z, x ∈ D → x = y +:+ z → y ≠ "" → y ∈ P) →
  (∃ c, in_bounds rows cols c ∧ reach true g D P rows cols c "" {[ c ]} x) ↔
  (∃ c, in_bounds rows cols c ∧ reach false g D P rows cols c "" {[ c ]} x).
Proof.
  intros Hclosed. split; intros (c & Hc & Hreach).
  - exists c. split; [done|]. by eapply reach_bruteforce.
  - pose proof (reach_accepted _ _ _ _ _ _ _ _ _ _ Hreach) as Hacc.
    apply reach_path in Hreach.
    destruct Hreach as (q & Hx & Hchain & Hin & Hnd & Hfresh).
    rewrite str_app_nil_l in Hx.
    destruct (drop_empty_tiles g rows cols (c :: q)) as (c' & q' & Hsimple & Hw & Hc').
    + split; [|split; [by constructor|done]].
      constructor; [|done]. intros Hq. apply (Hfresh c Hq). set_solver.
    + rewrite <- Hx. intros ->. destruct Hacc as [Hlen _].
      unfold str_len in Hlen. simpl in Hlen. lia.
    + destruct Hsimple as (Hnd' & Hin' & Hchain').
      apply NoDup_cons in Hnd'. destruct Hnd' as [Hc'q Hnd'].
      apply Forall_cons in Hin'. destruct Hin' as [Hc'in Hin'].
      exists c'. split; [done|].
      rewrite Hx, <- Hw, <- (str_app_nil_l (word_along g (c' :: q'))).
      apply path_reach; try done.
      * intros a Ha. assert (a ≠ c') by (by intros ->). set_solver.
      * rewrite str_app_nil_l, Hw, <- Hx. done.
Qed.

Lemma path_word_along g rows cols p :
  (∀ c, in_bounds rows cols c → tile_at g c.1 c.2 = Ok (tile_of g c)) →
  Forall (in_bounds rows cols) p → path_word g p = Ok (word_along g p).
Proof.
  intros Htile. induction 1 as [|c p Hc _ IH]; [done|].
  simpl. by rewrite (Htile c Hc), Ok_bind, IH.
Qed.

(** ** Construction *)

(** what [_solve] reads from a validated grid *)
Lemma valid_grid_dims g :
  _validateGrid g = Ok true →
  ∃ first,
    py_len g = Ok (grid_rows g) ∧ py_getitem g 0 = Ok first ∧
    py_len first = Ok (grid_cols g) ∧
    ∀ c, in_bounds (grid_rows g) (grid_cols g) c →
         tile_at g c.1 c.2 = Ok (tile_of g c).
Proof.
  intros Hvalid.
  destruct (validateGrid_true g Hvalid) as (tiles & cols & -> & Hne & Hall).
  rewrite grid_rows_grid_of, (grid_cols_grid_of tiles cols Hne Hall).
  destruct tiles as [|row tiles]; [done|].
  exists (PyList (PyStr <$> row)). split; [|split; [|split]].
  - unfold grid_of. simpl. by rewrite length_fmap.
  - unfold grid_of. simpl. unfold seq_getitem. simpl.
    destruct (Z.ltb_spec 0 (Z.pos (Pos.of_succ_nat
      (length ((λ row, PyList (PyStr <$> row)) <$> tiles))))); [done|lia].
  - simpl. rewrite length_fmap. by inversion Hall; subst.
  - intros c Hc. by apply (tile_at_grid_of (row :: tiles) cols).
Qed.

Lemma setGrid_valid self g :
  _validateGrid g = Ok true →
  setGrid self g = Ok {| grid := Some g; dictionary := dictionary self;
                         prefixes := prefixes self;
                         solution_words := solution_words self |}.
Proof. intros H. unfold setGrid. by rewrite H. Qed.

(** Valid inputs with a stack deeper than the number of cells: the object
    is built, and its solution list holds, once each, the words reached
    from the cells of the grid. *)
Lemma init_with_valid prune fuel g ws :
  _validateGrid g = Ok true → ws ≠ [] →
  (Z.to_nat (grid_rows g) * Z.to_nat (grid_cols g) < fuel)%nat →
  ∃ sol,
    init_with prune (S fuel) g (words_of ws) =
      Ok (searcher g (list_to_set (upper <$> ws))
                   (build_prefixes (list_to_set (upper <$> ws))) sol) ∧
    NoDup sol ∧
    ∀ x, x ∈ sol ↔
         ∃ c, in_bounds (grid_rows g) (grid_cols g) c ∧
              reach prune g (list_to_set (upper <$> ws))
                    (build_prefixes (list_to_set (upper <$> ws)))
                    (grid_rows g) (grid_cols g) c "" {[ c ]} x.
Proof.
  intros Hg Hws Hfuel.
  destruct (valid_grid_dims g Hg) as (first & Hrows & Hfirst & Hcols & Htile).
  unfold init_with. rewrite (setGrid_valid _ g Hg), Ok_bind.
  rewrite (setDictionary_words_of _ ws Hws), Ok_bind.
  cbn [grid dictionary prefixes solution_words].
  by apply (solve_with_spec g first).
Qed.

Lemma solve_with_fuel_le prune fuel fuel' self r :
  (fuel ≤ fuel')%nat →
  solve_with prune fuel self = Ok r → solve_with prune fuel' self = Ok r.
Proof.
  intros Hle. destruct fuel as [|fuel]; [done|].
  destruct fuel' as [|fuel']; [lia|]. unfold solve_with.
  destruct (grid self) as [g|]; [|done].
  destruct (dictionary self) as [D|]; [|done]. cbv zeta.
  intros (rows & -> & H)%bind_Ok. rewrite Ok_bind.
  apply bind_Ok in H. destruct H as (first & -> & H). rewrite Ok_bind.
  apply bind_Ok in H. destruct H as (cols & -> & H). rewrite Ok_bind.
  revert H. apply for_each_mono. intros row s s'.
  apply for_each_mono. intros col s1 s2.
  intros (st & Hcall & Hst)%bind_Ok.
  rewrite (dfs_with_fuel_le prune fuel fuel' _ _ _ _ _ _ _ st); [done|lia|done].
Qed.

Lemma init_with_fuel_le prune fuel fuel' g d r :
  (fuel ≤ fuel')%nat →
  init_with prune fuel g d = Ok r → init_with prune fuel' g d = Ok r.
Proof.
  intros Hle. unfold init_with.
  intros (self1 & -> & H)%bind_Ok. rewrite Ok_bind.
  apply bind_Ok in H. destruct H as (self2 & -> & H). rewrite Ok_bind.
  destruct (grid self2); [|done]. destruct (dictionary self2); [|done].
  by apply (solve_with_fuel_le prune fuel).
Qed.

(** [_validateGrid] and [setDictionary] do not recurse: they never run out
    of stack, and [setDictionary] never raises. *)
Lemma validate_rows_fuel n rows : validate_rows n rows ≠ OutOfFuel.
Proof.
  induction rows as [|row rows IH]; simpl; [done|].
  destruct row as [| | | |items]; simpl; try done.
  destruct (negb (Z.of_nat (length items) =? n)); [done|].
  by destruct (negb (forallb isinstance_str items)).
Qed.

Lemma validateGrid_fuel g : _validateGrid g ≠ OutOfFuel.
Proof.
  unfold _validateGrid.
  destruct (negb (truthy g) || negb (isinstance_list g)); [done|].
  destruct (py_len g) as [n| |] eqn:Hn; [|done|by destruct g].
  rewrite Ok_bind. destruct (n =? 0); [done|].
  destruct (py_getitem g 0) as [first| |] eqn:Hfirst; [|done|].
  - rewrite Ok_bind. destruct (py_len first) as [m| |] eqn:Hm;
      [|done|by destruct first].
    rewrite Ok_bind. destruct (py_iter g) as [rows| |] eqn:Hrows;
      [|done|by destruct g].
    rewrite Ok_bind. apply validate_rows_fuel.
  - destruct g as [| | |s|items]; try done; simpl in Hfirst;
      unfold seq_getitem in Hfirst;
      repeat match type of Hfirst with
      | (if ?b then _ else _) = _ => destruct b
      | match ?o with _ => _ end = _ => destruct o
      end; done.
Qed.

Lemma validateDictionary_returns d : ∃ b, _validateDictionary d = Ok b.
Proof.
  unfold _validateDictionary. destruct d as [|b|n|s|items]; simpl.
  - by eexists.
  - destruct b; by eexists.
  - destruct (n =? 0); by eexists.
  - destruct (String.eqb s ""); by eexists.
  - destruct items; by eexists.
Qed.

Lemma setDictionary_total self d :
  ∃ self', setDictionary self d = Ok self' ∧
           grid self' = grid self ∧
           solution_words self' = solution_words self ∧
           (dictionary self' = None ∨ ∃ ws, d = words_of ws ∧ ws ≠ []).
Proof.
  unfold setDictionary.
  destruct (_validateDictionary d) as [[]| |] eqn:Hd.
  - destruct (validateDictionary_true d Hd) as (ws & -> & Hws).
    rewrite Ok_bind. simpl. rewrite mapM_py_upper, Ok_bind.
    eexists. split; [done|]. split; [done|]. split; [done|]. right. eauto.
  - rewrite Ok_bind. simpl. eexists. split; [done|]. split; [done|].
    split; [done|]. by left.
  - exfalso. by destruct (validateDictionary_returns d) as [b Hb]; congruence.
  - exfalso. by destruct (validateDictionary_returns d) as [b Hb]; congruence.
Qed.

(** ** Shapes of inputs *)

Lemma validate_rows_grid2d n rows :
  validate_rows n (PyList <$> rows) =
  Ok (forallb (λ r, (Z.of_nat (length r) =? n) && forallb isinstance_str r)
              rows).
Proof.
  induction rows as [|r rows IH]; [done|]. simpl.
  destruct (Z.of_nat (length r) =? n); simpl; [|done].
  destruct (forallb isinstance_str r); simpl; [|done]. exact IH.
Qed.

Lemma validateGrid_grid2d rows :
  _validateGrid (grid2d rows) =
  Ok (match rows with
      | [] => false
      | r0 :: _ =>
          forallb (λ r, (Z.of_nat (length r) =? Z.of_nat (length r0))
                        && forallb isinstance_str r) rows
      end).
Proof.
  destruct rows as [|r0 rows]; [done|].
  unfold _validateGrid, grid2d. simpl. unfold seq_getitem. simpl.
  destruct (Z.ltb_spec 0 (Z.pos (Pos.of_succ_nat (length (PyList <$> rows)))));
    [|lia].
  simpl. apply (validate_rows_grid2d _ (r0 :: rows)).
Qed.

Lemma validateGrid_invalid rows :
  invalid_grid rows → _validateGrid (grid2d rows) = Ok false.
Proof.
  intros Hbad. rewrite validateGrid_grid2d. f_equal.
  destruct rows as [|r0 rows]; [done|].
  apply not_true_is_false. intros Hall. rewrite forallb_forall in Hall.
  assert (∀ r, r ∈ r0 :: rows →
            length r = length r0 ∧ forallb isinstance_str r = true) as Hrows.
  { intros r Hr%list_elem_of_In. apply Hall in Hr.
    apply andb_true_iff in Hr. destruct Hr as [Hlen Hr].
    apply Z.eqb_eq in Hlen. split; [lia|done]. }
  destruct Hbad as [|[(r1 & r2 & H1 & H2 & Hne)|(r & cell & Hr & Hcell & Hbad)]];
    [done| |].
  - apply Hrows in H1, H2. lia.
  - apply Hrows in Hr. destruct Hr as [_ Hr]. rewrite forallb_forall in Hr.
    apply list_elem_of_In, Hr in Hcell. congruence.
Qed.

Lemma validateDictionary_invalid d :
  invalid_dictionary d → _validateDictionary d = Ok false.
Proof.
  intros [->|(entries & e & -> & He & Hbad)]; [done|].
  unfold _validateDictionary. destruct entries as [|e0 entries].
  { by apply elem_of_nil in He. }
  cbn -[forallb]. f_equal. apply not_true_is_false. intros Hall.
  rewrite forallb_forall in Hall. apply list_elem_of_In, Hall in He.
  congruence.
Qed.

Lemma rectangular_with_grid_of tiles cols :
  tiles ≠ [] → Forall (λ row : list string, length row = cols) tiles →
  rectangular_with isinstance_str (grid_of tiles) = true.
Proof.
  intros Hne Hall. destruct tiles as [|row tiles]; [done|].
  unfold rectangular_with, grid_of.
  change ((λ row, PyList (PyStr <$> row)) <$> row :: tiles)
    with (PyList (PyStr <$> row) :: ((λ row, PyList (PyStr <$> row)) <$> tiles)).
  cbv iota beta.
  change (PyList (PyStr <$> row) :: ((λ row, PyList (PyStr <$> row)) <$> tiles))
    with ((λ row, PyList (PyStr <$> row)) <$> row :: tiles).
  assert (length row = cols) as Hrow by (by inversion Hall).
  apply forallb_forall. intros v Hv%list_elem_of_In.
  apply list_elem_of_fmap in Hv. destruct Hv as (r & -> & Hr).
  rewrite Forall_forall in Hall. apply Hall in Hr.
  rewrite !length_fmap, Hr, Hrow, Nat.eqb_refl. simpl.
  apply forallb_isinstance_str_fmap.
Qed.

Lemma setDictionary_invalid self d :
  invalid_dictionary d →
  setDictionary self d =
  Ok {| grid := grid self; dictionary := None; prefixes := prefixes self;
        solution_words := solution_words self |}.
Proof.
  intros Hbad. unfold setDictionary.
  by rewrite (validateDictionary_invalid d Hbad).
Qed.

Lemma init_with_setGrid prune fuel g d valid :
  _validateGrid g = Ok valid →
  init_with prune fuel g d =
  (self ← setDictionary
     {| grid := if valid then Some g else None; dictionary := None;
        prefixes := ∅; solution_words := [] |} d;
   match grid self, dictionary self with
   | Some _, Some _ => solve_with prune fuel self
   | _, _ => Ok self
   end).
Proof. intros H. unfold init_with, setGrid. rewrite H. by destruct valid. Qed.

(** ** The scenarios of the test suite *)

Example finds_cat :
  found_words (grid_of [["C"; "A"; "T"]; ["X"; "Z"; "Y"]; ["Q"; "U"; "A"]])
              (words_of ["CAT"]) = Ok ["CAT"].
Proof. vm_compute. reflexivity. Qed.

Example short_words_ignored :
  found_words (grid_of [["A"; "B"]; ["C"; "D"]]) (words_of ["AB"; "A"]) = Ok [].
Proof. vm_compute. reflexivity. Qed.

Example diagonal_path :
  found_words (grid_of [["A"; "X"; "X"]; ["X"; "B"; "X"]; ["X"; "X"; "C"]])
              (words_of ["ABC"]) = Ok ["ABC"].
Proof. vm_compute. reflexivity. Qed.

Example no_tile_reuse :
  found_words (grid_of [["A"; "B"]; ["C"; "D"]]) (words_of ["ABA"; "ABAB"])
  = Ok [].
Proof. vm_compute. reflexivity. Qed.

Example qu_tile :
  found_words (grid_of [["Qu"; "I"; "T"]; ["E"; "S"; "A"]; ["X"; "Y"; "Z"]])
              (words_of ["QUIT"; "QUEST"; "QUITE"]) = Ok ["QUIT"; "QUEST"].
Proof. vm_compute. reflexivity. Qed.

Example lower_case_inputs :
  found_words (grid_of [["c"; "a"; "t"]; ["x"; "z"; "y"]; ["q"; "u"; "a"]])
              (words_of ["CAT"; "cat"; "Cat"]) = Ok ["CAT"].
Proof. vm_compute. reflexivity. Qed.

Example empty_dictionary :
  found_words (grid_of [["A"; "B"]; ["C"; "D"]]) (words_of []) = Ok [].
Proof. vm_compute. reflexivity. Qed.

(** outside the 2D lists: a first row without a length *)
Example first_row_without_len :
  found_words (PyList [PyInt 5]) (words_of ["CAT"]) = Raise TypeError.
Proof. vm_compute. reflexivity. Qed.

(** * The claims *)

Lemma stack_bound_enough g :
  (Z.to_nat (grid_rows g) * Z.to_nat (grid_cols g)
   < S (Z.to_nat (grid_rows g) * Z.to_nat (grid_cols g)))%nat.
Proof. lia. Qed.

(** What [Boggle(grid, dictionary)] and its brute-force twin return on valid
    inputs. *)
Lemma Boggle_valid prune g ws :
  _validateGrid g = Ok true → ws ≠ [] →
  ∃ sol,
    init_with prune (stack_bound g) g (words_of ws) =
      Ok (searcher g (list_to_set (upper <$> ws))
                   (build_prefixes (list_to_set (upper <$> ws))) sol) ∧
    NoDup sol ∧
    ∀ x, x ∈ sol ↔
         ∃ c, in_bounds (grid_rows g) (grid_cols g) c ∧
              reach prune g (list_to_set (upper <$> ws))
                    (build_prefixes (list_to_set (upper <$> ws)))
                    (grid_rows g) (grid_cols g) c "" {[ c ]} x.
Proof.
  intros Hg Hws. apply init_with_valid; [done..|apply stack_bound_enough].
Qed.

(** C1. For every valid grid and dictionary, every word of the list returned
    by [getSolution()] is spelled by a sequence of grid coordinates that are
    pairwise distinct and consecutively 8-adjacent: concatenating the
    expanded tiles along it gives exactly that word. *)
Theorem solution_words_have_paths g d :
  _validateGrid g = Ok true → _validateDictionary d = Ok true →
  ∃ self,
    Boggle_new g d = Ok self ∧
    ∀ w, w ∈ getSolution self →
         ∃ p, simple_path (grid_rows g) (grid_cols g) p ∧
              path_word g p = Ok w.
Proof.
  intros Hg Hd. destruct (validateDictionary_true d Hd) as (ws & -> & Hws).
  destruct (Boggle_valid true g ws Hg Hws) as (sol & Hnew & _ & Hsol).
  eexists. split; [exact Hnew|]. intros w Hw. apply Hsol in Hw.
  destruct Hw as (c & Hc & Hreach). apply reach_path in Hreach.
  destruct Hreach as (q & -> & Hchain & Hin & Hnd & Hfresh).
  destruct (valid_grid_dims g Hg) as (_ & _ & _ & _ & Htile).
  exists (c :: q). split.
  - split; [|split; [by constructor|done]].
    constructor; [|done]. intros Hq. apply (Hfresh c Hq). set_solver.
  - rewrite str_app_nil_l. eapply path_word_along; [exact Htile|].
    by constructor.
Qed.

Lemma solution_words_have_paths_witness :
  ∃ self,
    Boggle_new (grid_of [["C"; "A"; "T"]; ["X"; "Z"; "Y"]; ["Q"; "U"; "A"]])
               (words_of ["cat"; "CATZY"; "AZU"]) = Ok self ∧
    ∀ w, w ∈ getSolution self →
         ∃ p, simple_path
                (grid_rows (grid_of [["C"; "A"; "T"]; ["X"; "Z"; "Y"];
                                     ["Q"; "U"; "A"]]))
                (grid_cols (grid_of [["C"; "A"; "T"]; ["X"; "Z"; "Y"];
                                     ["Q"; "U"; "A"]])) p ∧
              path_word (grid_of [["C"; "A"; "T"]; ["X"; "Z"; "Y"];
                                  ["Q"; "U"; "A"]]) p = Ok w.
Proof. apply solution_words_have_paths; reflexivity. Defined.

(** C2. For every valid grid and dictionary, every word of the list returned
    by [getSolution()] belongs to the set of the uppercased dictionary
    entries and has at least 3 letters. *)
Theorem solution_words_in_dictionary g d :
  _validateGrid g = Ok true → _validateDictionary d = Ok true →
  ∃ self ws,
    d = words_of ws ∧ Boggle_new g d = Ok self ∧
    dictionary self = Some (list_to_set (upper <$> ws)) ∧
    ∀ w, w ∈ getSolution self →
         w ∈ (list_to_set (upper <$> ws) : gset string) ∧ 3 ≤ str_len w.
Proof.
  intros Hg Hd. destruct (validateDictionary_true d Hd) as (ws & -> & Hws).
  destruct (Boggle_valid true g ws Hg Hws) as (sol & Hnew & _ & Hsol).
  eexists. exists ws. split; [done|]. split; [exact Hnew|]. split; [done|].
  intros w Hw. apply Hsol in Hw. destruct Hw as (c & _ & Hreach).
  apply reach_accepted in Hreach. by destruct Hreach.
Qed.

Lemma solution_words_in_dictionary_witness :
  ∃ self ws,
    words_of ["ab"; "abd"; "dcba"; "ABA"] = words_of ws ∧
    Boggle_new (grid_of [["A"; "B"]; ["C"; "D"]])
               (words_of ["ab"; "abd"; "dcba"; "ABA"]) = Ok self ∧
    dictionary self = Some (list_to_set (upper <$> ws)) ∧
    ∀ w, w ∈ getSolution self →
         w ∈ (list_to_set (upper <$> ws) : gset string) ∧ 3 ≤ str_len w.
Proof. apply solution_words_in_dictionary; reflexivity. Defined.

(** C3. For every valid grid and dictionary, the search with the prefix test
    removed (brute-force enumeration of all simple paths) returns the same
    set of words as the search with the test. *)
Theorem pruning_preserves_solution_set g d :
  _validateGrid g = Ok true → _validateDictionary d = Ok true →
  ∃ pruned brute,
    Boggle_new g d = Ok pruned ∧ Boggle_bruteforce g d = Ok brute ∧
    ∀ w, w ∈ getSolution pruned ↔ w ∈ getSolution brute.
Proof.
  intros Hg Hd. destruct (validateDictionary_true d Hd) as (ws & -> & Hws).
  destruct (Boggle_valid true g ws Hg Hws) as (sol & Hnew & _ & Hsol).
  destruct (Boggle_valid false g ws Hg Hws) as (sol' & Hnew' & _ & Hsol').
  eexists. eexists. split; [exact Hnew|]. split; [exact Hnew'|].
  intros w. unfold getSolution. simpl. rewrite Hsol, Hsol'.
  apply reach_prune_equiv. apply build_prefixes_closed.
Qed.

Lemma pruning_preserves_solution_set_witness :
  ∃ pruned brute,
    Boggle_new (grid_of [[""; "c"; "a"; "t"]]) (words_of ["cat"; "tac"])
      = Ok pruned ∧
    Boggle_bruteforce (grid_of [[""; "c"; "a"; "t"]]) (words_of ["cat"; "tac"])
      = Ok brute ∧
    ∀ w, w ∈ getSolution pruned ↔ w ∈ getSolution brute.
Proof. apply pruning_preserves_solution_set; reflexivity. Defined.

(** C4. For every grid and dictionary whatsoever, the construction either
    raises while validating or returns an object whose solution list has
    pairwise distinct elements; it never runs out of stack. *)
Theorem solution_words_distinct g d :
  match Boggle_new g d with
  | Ok self => NoDup (getSolution self)
  | Raise _ => True
  | OutOfFuel => False
  end.
Proof.
  unfold Boggle_new, __init__.
  destruct (_validateGrid g) as [valid| |] eqn:Hg.
  - rewrite (init_with_setGrid _ _ _ _ _ Hg).
    destruct (setDictionary_total
      {| grid := if valid then Some g else None; dictionary := None;
         prefixes := ∅; solution_words := [] |} d)
      as (self & Hset & Hgrid & Hsol & Hdict).
    simpl in Hgrid, Hsol. destruct valid.
    + destruct Hdict as [Hnone|(ws & -> & Hws)].
      * rewrite Hset, Ok_bind, Hgrid, Hnone.
        unfold getSolution. rewrite Hsol. constructor.
      * destruct (Boggle_valid true g ws Hg Hws) as (sol & Hnew & Hnd & _).
        rewrite (init_with_setGrid _ _ _ _ _ Hg) in Hnew.
        rewrite Hnew. exact Hnd.
    + rewrite Hset, Ok_bind, Hgrid.
      unfold getSolution. rewrite Hsol. constructor.
  - unfold init_with, setGrid. by rewrite Hg.
  - by apply validateGrid_fuel in Hg.
Qed.

(** Invalid input on lists of lists.  When the grid is a list of lists and
    is empty, not rectangular or holds a non-string cell, or the dictionary
    is empty or holds a non-string entry, [Boggle(grid, dictionary)] returns
    an object whose [getSolution()] is the empty list, and it does so with
    no stack at all below [__init__]: neither [_solve] nor [_dfs] is
    entered.  This is the path on which a bad row or cell makes
    [_validateGrid] return [False]. *)
Theorem invalid_input_empty_solution rows d :
  invalid_grid rows ∨ invalid_dictionary d →
  ∃ self,
    (∀ fuel, __init__ fuel (grid2d rows) d = Ok self) ∧
    Boggle_new (grid2d rows) d = Ok self ∧
    getSolution self = [].
Proof.
  intros Hbad.
  enough (∃ self, (∀ fuel, __init__ fuel (grid2d rows) d = Ok self) ∧
                  getSolution self = []) as (self & Hinit & Hsol).
  { exists self. split; [done|]. split; [apply Hinit|done]. }
  unfold __init__. destruct Hbad as [Hgrid|Hdict].
  - destruct (setDictionary_total
      {| grid := None; dictionary := None; prefixes := ∅;
         solution_words := [] |} d) as (self & Hset & Hg & Hsol & _).
    exists self. split; [|done]. intros fuel.
    rewrite (init_with_setGrid _ _ _ _ _ (validateGrid_invalid rows Hgrid)).
    rewrite Hset, Ok_bind. simpl in Hg. by rewrite Hg.
  - destruct (_validateGrid (grid2d rows)) as [valid| |] eqn:Hg;
      [|by rewrite validateGrid_grid2d in Hg..].
    exists {| grid := if valid then Some (grid2d rows) else None;
              dictionary := None; prefixes := ∅; solution_words := [] |}.
    split; [|done]. intros fuel.
    rewrite (init_with_setGrid _ _ _ _ _ Hg).
    rewrite (setDictionary_invalid _ d Hdict), Ok_bind.
    cbn [grid dictionary prefixes solution_words]. by destruct valid.
Qed.

Lemma invalid_input_empty_solution_witness :
  ∃ self,
    (∀ fuel, __init__ fuel (grid2d []) (words_of ["CAT"; "DOG"]) = Ok self) ∧
    Boggle_new (grid2d []) (words_of ["CAT"; "DOG"]) = Ok self ∧
    getSolution self = [].
Proof. apply invalid_input_empty_solution. left. left. reflexivity. Defined.

(** C5. An empty dictionary, or a grid that is not rectangular, does not
    always yield the empty list: [_validateGrid] reads [len(grid[0])]
    before it tests any row, so for the grid [[5]] and the empty dictionary
    it raises [TypeError] instead of returning [False], and so does the
    construction, with any stack; no object is returned.  The same happens
    for the grid [[5, ["A"]]], whose rows differ, with a valid dictionary. *)
Theorem invalid_input_raises :
  invalid_dictionary (PyList []) ∧
  _validateGrid (PyList [PyInt 5]) = Raise TypeError ∧
  (∀ fuel, __init__ fuel (PyList [PyInt 5]) (PyList []) = Raise TypeError) ∧
  Boggle_new (PyList [PyInt 5]) (PyList []) = Raise TypeError ∧
  _validateDictionary (words_of ["CAT"]) = Ok true ∧
  Boggle_new (PyList [PyInt 5; PyList [PyStr "A"]]) (words_of ["CAT"])
    = Raise TypeError.
Proof.
  split; [by left|]. split; [reflexivity|]. split; [|split; [|split]].
  - intros fuel. unfold __init__, init_with, setGrid. reflexivity.
  - reflexivity.
  - reflexivity.
  - reflexivity.
Qed.

(** C6. A call of [_dfs] that returns leaves the visited set equal to the
    one it was entered with; the return taken when the accumulated word is
    no dictionary prefix hands back object and set untouched; and on a
    validated grid every call at a cell of the grid, with a stack deeper
    than the number of unvisited cells, does return. *)
Theorem dfs_restores_visited :
  (∀ fuel self row col w V rows cols self' V',
     _dfs fuel self row col w V rows cols = Ok (self', V') → V' = V) ∧
  (∀ fuel self row col w V rows cols g tile,
     self_grid self = Ok g → tile_at g row col = Ok tile →
     w +:+ tile ∉ prefixes self →
     _dfs (S fuel) self row col w V rows cols = Ok (self, V)) ∧
  (∀ fuel g D P sol c w V,
     _validateGrid g = Ok true →
     in_bounds (grid_rows g) (grid_cols g) c →
     (size (cells (grid_rows g) (grid_cols g) ∖ V) < fuel)%nat →
     ∃ sol', _dfs fuel (searcher g D P sol) c.1 c.2 w V
                  (grid_rows g) (grid_cols g) = Ok (searcher g D P sol', V)).
Proof.
  split; [|split].
  - apply dfs_with_visited.
  - intros fuel self row col w V rows cols g tile Hg Htile Hpre.
    unfold _dfs. rewrite dfs_with_S, Hg, Ok_bind, Htile, Ok_bind. cbv zeta.
    by rewrite bool_decide_eq_false_2.
  - intros fuel g D P sol c w V Hg Hc Hfuel.
    destruct (valid_grid_dims g Hg) as (_ & _ & _ & _ & Htile).
    destruct (dfs_with_spec g D P _ _ Htile true fuel c w V sol Hc Hfuel)
      as (sol' & Hcall & _).
    by exists sol'.
Qed.

Lemma dfs_restores_visited_witness :
  ∃ sol',
    _dfs 4 (searcher (grid_of [["C"; "A"]; ["T"; "S"]]) {[ "CAT" ]}
                     {[ "C"; "CA"; "CAT" ]} [])
         (0, 0).1 (0, 0).2 "" {[ (0, 0) ]}
         (grid_rows (grid_of [["C"; "A"]; ["T"; "S"]]))
         (grid_cols (grid_of [["C"; "A"]; ["T"; "S"]]))
    = Ok (searcher (grid_of [["C"; "A"]; ["T"; "S"]]) {[ "CAT" ]}
                   {[ "C"; "CA"; "CAT" ]} sol', {[ (0, 0) ]}).
Proof.
  apply (proj2 (proj2 dfs_restores_visited)).
  - reflexivity.
  - unfold in_bounds. vm_compute. repeat split; discriminate.
  - vm_compute. lia.
Defined.

(** C7, as the code has it. A grid that [setGrid] stores (the only grids a
    search is run on) is the caller's grid, a non-empty list of rows of one
    length whose cells are all strings; a cell may be the empty string. *)
Theorem accepted_grid_shape self g self' g' :
  setGrid self g = Ok self' → grid self' = Some g' →
  g' = g ∧ rectangular_with isinstance_str g = true.
Proof.
  unfold setGrid. intros (valid & Hvalid & Hset)%bind_Ok Hgrid.
  destruct valid; simpl in Hset; injection Hset as <-; simpl in Hgrid; [|done].
  injection Hgrid as <-. split; [done|].
  destruct (validateGrid_true g Hvalid) as (tiles & cols & -> & Hne & Hall).
  by eapply rectangular_with_grid_of.
Qed.

Lemma accepted_grid_shape_witness :
  grid_of [["a"; "b"]; [""; "Qu"]] = grid_of [["a"; "b"]; [""; "Qu"]] ∧
  rectangular_with isinstance_str (grid_of [["a"; "b"]; [""; "Qu"]]) = true.
Proof.
  apply (accepted_grid_shape
           {| grid := None; dictionary := None; prefixes := ∅;
              solution_words := [] |}
           (grid_of [["a"; "b"]; [""; "Qu"]])
           {| grid := Some (grid_of [["a"; "b"]; [""; "Qu"]]);
              dictionary := None; prefixes := ∅; solution_words := [] |});
    reflexivity.
Defined.

(** C7, as stated, fails: the grid [[""]] is stored and searched, and its
    only cell is the empty string. *)
Lemma accepted_grid_empty_cell :
  ∃ self,
    Boggle_new (grid_of [[""]]) (words_of ["A"]) = Ok self ∧
    grid self = Some (grid_of [[""]]) ∧
    rectangular_with nonempty_str (grid_of [[""]]) = false.
Proof. eexists. split; [|split]; vm_compute; reflexivity. Qed.

(** C8, as the code has it. Whenever the dictionary input passes validation,
    [setDictionary] stores the uppercased entries, and a stored word belongs
    to the stored prefix set exactly when its length is at least 1. *)
Theorem stored_words_are_prefixes self d :
  _validateDictionary d = Ok true →
  ∃ self' D,
    setDictionary self d = Ok self' ∧ dictionary self' = Some D ∧
    ∀ w, w ∈ D → (w ∈ prefixes self' ↔ 1 ≤ str_len w).
Proof.
  intros Hd. destruct (validateDictionary_true d Hd) as (ws & -> & Hws).
  eexists. eexists. split; [by apply setDictionary_words_of|].
  split; [done|]. simpl. intros w Hw. split.
  - intros (word & n & _ & Hn & ->)%elem_of_build_prefixes.
    assert (str_take n word ≠ "") as Hne.
    { apply str_take_nonempty; [lia|]. intros ->. simpl in Hn. lia. }
    apply str_length_pos in Hne. unfold str_len. lia.
  - intros Hlen. apply (build_prefixes_closed _ w w ""); [done| |].
    + by rewrite str_app_nil_r.
    + intros ->. unfold str_len in Hlen. simpl in Hlen. lia.
Qed.

Lemma stored_words_are_prefixes_witness :
  ∃ self' D,
    setDictionary {| grid := None; dictionary := None; prefixes := ∅;
                     solution_words := [] |} (words_of ["cat"; ""; "Dog"])
      = Ok self' ∧
    dictionary self' = Some D ∧
    ∀ w, w ∈ D → (w ∈ prefixes self' ↔ 1 ≤ str_len w).
Proof. apply stored_words_are_prefixes. reflexivity. Defined.

(** C8, as stated, fails: the dictionary [[""]] passes validation, and the
    stored word [""] has length 0 and is not in the prefix set. *)
Lemma stored_empty_word :
  ∃ self' D,
    _validateDictionary (words_of [""]) = Ok true ∧
    setDictionary {| grid := None; dictionary := None; prefixes := ∅;
                     solution_words := [] |} (words_of [""]) = Ok self' ∧
    dictionary self' = Some D ∧ "" ∈ D ∧
    ¬ (1 ≤ str_len "" ∧ "" ∈ prefixes self').
Proof.
  eexists. eexists. split; [reflexivity|].
  split; [apply setDictionary_words_of; done|]. split; [done|].
  split; [set_solver|]. intros [Hlen _]. vm_compute in Hlen. done.
Qed.

(** C9. For every valid grid and dictionary the search terminates: the
    construction returns an object, the same for every stack at least as
    deep as [stack_bound]; and from every starting cell [_dfs] returns as
    soon as the stack holds one frame per cell of the grid, each nested call
    having one more visited cell of the grid than its caller. *)
Theorem search_terminates g d :
  _validateGrid g = Ok true → _validateDictionary d = Ok true →
  ∃ self,
    Boggle_new g d = Ok self ∧
    (∀ fuel, (stack_bound g ≤ fuel)%nat → __init__ fuel g d = Ok self) ∧
    (∀ fuel c sol,
       in_bounds (grid_rows g) (grid_cols g) c →
       (Z.to_nat (grid_rows g) * Z.to_nat (grid_cols g) ≤ fuel)%nat →
       ∃ sol', _dfs fuel (with_solution self sol) c.1 c.2 "" {[ c ]}
                    (grid_rows g) (grid_cols g)
               = Ok (with_solution self sol', {[ c ]})).
Proof.
  intros Hg Hd. destruct (validateDictionary_true d Hd) as (ws & -> & Hws).
  destruct (Boggle_valid true g ws Hg Hws) as (sol0 & Hnew & _).
  eexists. split; [exact Hnew|]. split.
  - intros fuel Hfuel. by apply (init_with_fuel_le true (stack_bound g)).
  - intros fuel c sol Hc Hfuel.
    destruct (valid_grid_dims g Hg) as (_ & _ & _ & _ & Htile).
    destruct (dfs_with_spec g (list_to_set (upper <$> ws))
                (build_prefixes (list_to_set (upper <$> ws))) _ _ Htile true
                fuel c "" {[ c ]} sol Hc) as (sol' & Hcall & _).
    + pose proof (size_cells (grid_rows g) (grid_cols g)) as Hsize.
      assert (cells (grid_rows g) (grid_cols g) ∖ {[ c ]}
              ⊂ cells (grid_rows g) (grid_cols g)) as Hsub.
      { apply elem_of_cells in Hc. set_solver. }
      apply subset_size in Hsub. lia.
    + by exists sol'.
Qed.

Lemma search_terminates_witness :
  ∃ self,
    Boggle_new (grid_of [["A"; "B"]; ["C"; "D"]]) (words_of ["ABA"; "ABAB"])
      = Ok self ∧
    (∀ fuel, (stack_bound (grid_of [["A"; "B"]; ["C"; "D"]]) ≤ fuel)%nat →
       __init__ fuel (grid_of [["A"; "B"]; ["C"; "D"]])
                (words_of ["ABA"; "ABAB"]) = Ok self) ∧
    (∀ fuel c sol,
       in_bounds (grid_rows (grid_of [["A"; "B"]; ["C"; "D"]]))
                 (grid_cols (grid_of [["A"; "B"]; ["C"; "D"]])) c →
       (Z.to_nat (grid_rows (grid_of [["A"; "B"]; ["C"; "D"]])) *
        Z.to_nat (grid_cols (grid_of [["A"; "B"]; ["C"; "D"]])) ≤ fuel)%nat →
       ∃ sol', _dfs fuel (with_solution self sol) c.1 c.2 "" {[ c ]}
                    (grid_rows (grid_of [["A"; "B"]; ["C"; "D"]]))
                    (grid_cols (grid_of [["A"; "B"]; ["C"; "D"]]))
               = Ok (with_solution self sol', {[ c ]})).
Proof. apply search_terminates; reflexivity. Defined.

(** C10. [_expandTile] returns exactly the uppercased tile: on every string
    tile, and on any other value it fails as [upper()] does; the branches
    for ["QU"], ["ST"] and ["IE"] change nothing. *)
Theorem expandTile_is_upper :
  (∀ s, _expandTile (PyStr s) = Ok (upper s)) ∧
  (∀ tile, _expandTile tile = py_upper tile).
Proof.
  assert (∀ tile, _expandTile tile = py_upper tile) as Hall.
  { intros tile. unfold _expandTile.
    destruct (py_upper tile) as [u| |]; [|done..]. rewrite Ok_bind.
    destruct (String.eqb_spec u "QU") as [->|_]; [done|].
    destruct (String.eqb_spec u "ST") as [->|_]; [done|].
    by destruct (String.eqb_spec u "IE") as [->|_]. }
  split; [|done]. intros s. by rewrite Hall.
Qed.

(** * Further properties of the code *)

(** ** Case *)

Lemma ascii_upper_idemp c : ascii_upper (ascii_upper c) = ascii_upper c.
Proof. by destruct c as [[] [] [] [] [] [] [] []]. Qed.

Lemma upper_idemp s : upper (upper s) = upper s.
Proof.
  induction s as [|c s IH]; [done|]. simpl. by rewrite ascii_upper_idemp, IH.
Qed.

Lemma upper_fmap_idemp (ws : list string) :
  upper <$> (upper <$> ws) = upper <$> ws.
Proof.
  rewrite <- list_fmap_compose. apply list_fmap_ext. intros _ w _. simpl.
  apply upper_idemp.
Qed.

Lemma str_take_split n s : ∃ t, s = str_take n s +:+ t.
Proof.
  revert s. induction n as [|n IH]; intros s.
  - exists s. by destruct s.
  - destruct s as [|c s]; [by exists ""|].
    destruct (IH s) as [t Ht]. exists t. simpl. by rewrite str_app_cons, <- Ht.
Qed.

(** ** What the search finds *)

(** a path of the game that spells an accepted word is searched from its
    first cell whose tile is not empty *)
Lemma simple_path_reach g (D P : gset string) rows cols p :
  (∀ x y z, x ∈ D → x = y +:+ z → y ≠ "" → y ∈ P) →
  simple_path rows cols p → accepted D (word_along g p) →
  ∃ c, in_bounds rows cols c ∧
       reach true g D P rows cols c "" {[ c ]} (word_along g p).
Proof.
  intros Hclosed Hpath Hacc.
  destruct (drop_empty_tiles g rows cols p Hpath) as (c & q & Hsimple & Hw & Hc).
  { intros Hempty. rewrite Hempty in Hacc. destruct Hacc as [Hlen _].
    unfold str_len in Hlen. simpl in Hlen. lia. }
  destruct Hsimple as (Hnd & Hin & Hchain).
  apply NoDup_cons in Hnd. destruct Hnd as [Hcq Hnd].
  apply Forall_cons in Hin. destruct Hin as [Hcin Hin].
  exists c. split; [done|].
  rewrite <- Hw, <- (str_app_nil_l (word_along g (c :: q))).
  apply path_reach; try done.
  - intros a Ha. assert (a ≠ c) by (by intros ->). set_solver.
  - by rewrite str_app_nil_l, Hw.
Qed.

(** The words of the solution list are exactly the accepted words that some
    path of the game spells. *)
Lemma Boggle_new_spec g ws :
  _validateGrid g = Ok true → ws ≠ [] →
  ∃ sol,
    Boggle_new g (words_of ws) =
      Ok (searcher g (list_to_set (upper <$> ws))
                   (build_prefixes (list_to_set (upper <$> ws))) sol) ∧
    NoDup sol ∧
    ∀ x, x ∈ sol ↔
         (accepted (list_to_set (upper <$> ws)) x ∧
          ∃ p, simple_path (grid_rows g) (grid_cols g) p ∧
               path_word g p = Ok x).
Proof.
  intros Hg Hws.
  destruct (Boggle_valid true g ws Hg Hws) as (sol & Hnew & Hnd & Hsol).
  destruct (valid_grid_dims g Hg) as (_ & _ & _ & _ & Htile).
  exists sol. split; [exact Hnew|]. split; [done|]. intros x. rewrite Hsol.
  split.
  - intros (c & Hc & Hreach). split; [by eapply reach_accepted|].
    apply reach_path in Hreach.
    destruct Hreach as (q & -> & Hchain & Hin & Hndq & Hfresh).
    exists (c :: q). split.
    + split; [|split; [by constructor|done]].
      constructor; [|done]. intros Hq. apply (Hfresh c Hq). set_solver.
    + rewrite str_app_nil_l. eapply path_word_along; [exact Htile|].
      by constructor.
  - intros (Hacc & p & Hpath & Hword).
    assert (x = word_along g p) as ->.
    { destruct Hpath as (_ & Hin & _).
      rewrite (path_word_along g _ _ p Htile Hin) in Hword. congruence. }
    apply simple_path_reach; [apply build_prefixes_closed|done..].
Qed.

Lemma size_set_of_list_le (l : list string) :
  (size (list_to_set l : gset string) ≤ length l)%nat.
Proof.
  induction l as [|x l IH].
  - rewrite list_to_set_nil, size_empty. done.
  - rewrite list_to_set_cons. cbn [length].
    destruct (decide (x ∈ (list_to_set l : gset string))) as [Hin|Hin].
    + rewrite (subseteq_union_1_L {[x]} (list_to_set l)); [lia|].
      by apply singleton_subseteq_l.
    + rewrite size_union by set_solver. rewrite size_singleton. lia.
Qed.

(** X1. The search is complete: on a valid grid, a word that has at least 3
    letters, is the uppercase of a dictionary entry and is spelled by a
    path of distinct, consecutively adjacent cells of the grid is in the
    list returned by [getSolution()]. *)
Theorem search_finds_every_path g ws p w :
  _validateGrid g = Ok true →
  simple_path (grid_rows g) (grid_cols g) p → path_word g p = Ok w →
  3 ≤ str_len w → w ∈ upper <$> ws →
  ∃ self, Boggle_new g (words_of ws) = Ok self ∧ w ∈ getSolution self.
Proof.
  intros Hg Hpath Hword Hlen Hw.
  assert (ws ≠ []) as Hws by (intros ->; by apply elem_of_nil in Hw).
  destruct (Boggle_new_spec g ws Hg Hws) as (sol & Hnew & _ & Hsol).
  eexists. split; [exact Hnew|]. apply Hsol. split; [|by exists p].
  split; [done|]. by apply elem_of_list_to_set.
Qed.

Lemma search_finds_every_path_witness :
  ∃ self,
    Boggle_new (grid_of [["a"; "x"; "x"]; ["x"; "b"; "x"]; ["x"; "x"; "c"]])
               (words_of ["xyz"; "Abc"]) = Ok self ∧
    "ABC" ∈ getSolution self.
Proof.
  apply (search_finds_every_path _ _ [(0, 0); (1, 1); (2, 2)]).
  - reflexivity.
  - split; [|split].
    + repeat (constructor; [set_solver|]). constructor.
    + repeat (constructor; [by vm_compute|]). constructor.
    + vm_compute. repeat split; try discriminate; intros [=].
  - reflexivity.
  - by vm_compute.
  - vm_compute. set_solver.
Defined.

(** X2. Adding entries to the dictionary never loses a word: on a valid
    grid, every word found with a dictionary is found with any dictionary
    that contains its entries. *)
Theorem more_entries_keep_words g ws ws' :
  _validateGrid g = Ok true → ws ≠ [] → (∀ e, e ∈ ws → e ∈ ws') →
  ∃ self self',
    Boggle_new g (words_of ws) = Ok self ∧
    Boggle_new g (words_of ws') = Ok self' ∧
    ∀ w, w ∈ getSolution self → w ∈ getSolution self'.
Proof.
  intros Hg Hws Hsub.
  assert (ws' ≠ []) as Hws'.
  { destruct ws as [|e ws]; [done|]. intros ->.
    specialize (Hsub e). rewrite elem_of_nil in Hsub. apply Hsub. by left. }
  destruct (Boggle_new_spec g ws Hg Hws) as (sol & Hnew & _ & Hsol).
  destruct (Boggle_new_spec g ws' Hg Hws') as (sol' & Hnew' & _ & Hsol').
  eexists. eexists. split; [exact Hnew|]. split; [exact Hnew'|].
  intros w. unfold getSolution. simpl. rewrite Hsol, Hsol'.
  intros ([Hlen Hw] & Hp). split; [|done]. split; [done|].
  apply elem_of_list_to_set. apply elem_of_list_to_set in Hw.
  apply list_elem_of_fmap in Hw. destruct Hw as (e & -> & He).
  apply list_elem_of_fmap. exists e. split; [done|]. by apply Hsub.
Qed.

Lemma more_entries_keep_words_witness :
  ∃ self self',
    Boggle_new (grid_of [["C"; "A"; "T"]]) (words_of ["cat"]) = Ok self ∧
    Boggle_new (grid_of [["C"; "A"; "T"]]) (words_of ["tac"; "cat"])
      = Ok self' ∧
    ∀ w, w ∈ getSolution self → w ∈ getSolution self'.
Proof.
  apply more_entries_keep_words; [reflexivity|done|].
  intros e He. apply elem_of_cons. right. exact He.
Defined.

(** X3. On valid inputs the solution list is never longer than the
    dictionary: it has at most as many words as there are distinct
    uppercased entries, hence at most as many as entries. *)
Theorem solution_no_longer_than_dictionary g d :
  _validateGrid g = Ok true → _validateDictionary d = Ok true →
  ∃ self ws,
    d = words_of ws ∧ Boggle_new g d = Ok self ∧
    (length (getSolution self)
     ≤ size (list_to_set (upper <$> ws) : gset string))%nat ∧
    (length (getSolution self) ≤ length ws)%nat.
Proof.
  intros Hg Hd. destruct (validateDictionary_true d Hd) as (ws & -> & Hws).
  destruct (Boggle_new_spec g ws Hg Hws) as (sol & Hnew & Hnd & Hsol).
  eexists. exists ws. split; [done|]. split; [exact Hnew|].
  unfold getSolution. simpl.
  assert (length sol ≤ size (list_to_set (upper <$> ws) : gset string))%nat
    as Hle.
  { unfold size, set_size. simpl. apply submseteq_length.
    apply NoDup_submseteq; [done|]. intros x Hx. apply elem_of_elements.
    apply Hsol in Hx. by destruct Hx as [[_ Hx] _]. }
  split; [done|].
  pose proof (size_set_of_list_le (upper <$> ws)) as Hsize.
  rewrite length_fmap in Hsize. lia.
Qed.

Lemma solution_no_longer_than_dictionary_witness :
  ∃ self ws,
    words_of ["cat"; "CAT"; "tac"] = words_of ws ∧
    Boggle_new (grid_of [["C"; "A"; "T"]]) (words_of ["cat"; "CAT"; "tac"])
      = Ok self ∧
    (length (getSolution self)
     ≤ size (list_to_set (upper <$> ws) : gset string))%nat ∧
    (length (getSolution self) ≤ length ws)%nat.
Proof. apply solution_no_longer_than_dictionary; reflexivity. Defined.

(** X4. Only the set of uppercased entries matters: two non-empty word
    lists with the same uppercased entries, in any order, case and
    multiplicity, give the same outcome of [Boggle(grid, dictionary)] on
    every grid, the solution list in the same order included. *)
Theorem dictionary_read_as_set g ws ws' :
  ws ≠ [] → ws' ≠ [] →
  (list_to_set (upper <$> ws) : gset string) = list_to_set (upper <$> ws') →
  Boggle_new g (words_of ws) = Boggle_new g (words_of ws').
Proof.
  intros Hws Hws' Hset. unfold Boggle_new, __init__, init_with.
  destruct (setGrid _ g) as [self| |]; [|done..]. rewrite !Ok_bind.
  by rewrite (setDictionary_words_of self ws Hws),
             (setDictionary_words_of self ws' Hws'), Hset.
Qed.

Lemma dictionary_read_as_set_witness :
  Boggle_new (grid_of [["C"; "A"; "T"]]) (words_of ["cat"; "Tac"]) =
  Boggle_new (grid_of [["C"; "A"; "T"]]) (words_of ["TAC"; "CAT"; "cat"]).
Proof. apply dictionary_read_as_set; [done|done|by vm_compute]. Defined.

(** X5. Every word of the solution list is in upper case, whatever the case
    of the tiles and of the dictionary entries. *)
Theorem solution_words_upper_case g d :
  _validateGrid g = Ok true → _validateDictionary d = Ok true →
  ∃ self, Boggle_new g d = Ok self ∧
          ∀ w, w ∈ getSolution self → upper w = w.
Proof.
  intros Hg Hd. destruct (validateDictionary_true d Hd) as (ws & -> & Hws).
  destruct (Boggle_new_spec g ws Hg Hws) as (sol & Hnew & _ & Hsol).
  eexists. split; [exact Hnew|]. intros w Hw. apply Hsol in Hw.
  destruct Hw as [[_ Hw] _]. apply elem_of_list_to_set in Hw.
  apply list_elem_of_fmap in Hw. destruct Hw as (e & -> & _).
  apply upper_idemp.
Qed.

Lemma solution_words_upper_case_witness :
  ∃ self,
    Boggle_new (grid_of [["c"; "a"; "t"]]) (words_of ["Cat"]) = Ok self ∧
    ∀ w, w ∈ getSolution self → upper w = w.
Proof. apply solution_words_upper_case; reflexivity. Defined.

(** ** What the search leaves alone *)

Lemma record_word_appends self new_word self' :
  record_word self new_word = Ok self' →
  grid self' = grid self ∧ dictionary self' = dictionary self ∧
  prefixes self' = prefixes self ∧
  solution_words self `prefix_of` solution_words self'.
Proof.
  unfold record_word. destruct (3 <=? str_len new_word).
  - intros (D & _ & H)%bind_Ok.
    destruct (bool_decide (new_word ∈ D));
      [destruct (bool_decide (new_word ∉ solution_words self))|];
      injection H as <-; simpl; repeat split; try done.
    by apply prefix_app_r.
  - by intros [= <-].
Qed.

Lemma dfs_with_appends prune fuel :
  ∀ self row col w V rows cols self' V',
    dfs_with prune fuel self row col w V rows cols = Ok (self', V') →
    grid self' = grid self ∧ dictionary self' = dictionary self ∧
    prefixes self' = prefixes self ∧
    solution_words self `prefix_of` solution_words self'.
Proof.
  induction fuel as [|fuel IH]; intros self row col w V rows cols self' V';
    [done|].
  rewrite dfs_with_S. intros (g & _ & H)%bind_Ok.
  apply bind_Ok in H. destruct H as (tile & _ & H). cbv zeta in H.
  destruct (prune && negb (bool_decide (w +:+ tile ∈ prefixes self)));
    [by injection H as <- _|].
  apply bind_Ok in H. destruct H as (self1 & Hrec & H).
  apply record_word_appends in Hrec.
  destruct Hrec as (Hg1 & Hd1 & Hp1 & Hs1).
  apply (for_each_Ok_inv
    (λ st, grid st.1 = grid self ∧ dictionary st.1 = dictionary self ∧
           prefixes st.1 = prefixes self ∧
           solution_words self `prefix_of` solution_words st.1)) in H;
    [exact H| |done].
  intros n [s1 V1] [s2 V2] (Hg & Hd & Hp & Hs) Hbody. simpl in *.
  destruct (bool_decide (n ∉ V1)); [|by injection Hbody as <- _].
  apply bind_Ok in Hbody. destruct Hbody as ([s3 V3] & Hcall & Hrm).
  apply IH in Hcall. destruct Hcall as (Hg3 & Hd3 & Hp3 & Hs3).
  apply bind_Ok in Hrm. destruct Hrm as (V4 & _ & Hrm).
  simpl in Hrm. injection Hrm as <- _.
  repeat split; try congruence. by etrans.
Qed.

(** X6. A call of [_dfs] that returns has left the grid, the dictionary and
    the prefix set of the object as they were, and has only appended to the
    solution list: the words found before are still there, in the same
    order, at the front. *)
Theorem dfs_only_appends fuel self row col w V rows cols self' V' :
  _dfs fuel self row col w V rows cols = Ok (self', V') →
  grid self' = grid self ∧ dictionary self' = dictionary self ∧
  prefixes self' = prefixes self ∧
  solution_words self `prefix_of` solution_words self'.
Proof. apply dfs_with_appends. Qed.

Lemma dfs_only_appends_witness :
  grid (searcher (grid_of [["C"; "A"; "T"]]) {[ "CAT" ]}
                 {[ "C"; "CA"; "CAT" ]} ["DOG"; "CAT"]) =
  grid (searcher (grid_of [["C"; "A"; "T"]]) {[ "CAT" ]}
                 {[ "C"; "CA"; "CAT" ]} ["DOG"]) ∧
  dictionary (searcher (grid_of [["C"; "A"; "T"]]) {[ "CAT" ]}
                       {[ "C"; "CA"; "CAT" ]} ["DOG"; "CAT"]) =
  dictionary (searcher (grid_of [["C"; "A"; "T"]]) {[ "CAT" ]}
                       {[ "C"; "CA"; "CAT" ]} ["DOG"]) ∧
  prefixes (searcher (grid_of [["C"; "A"; "T"]]) {[ "CAT" ]}
                     {[ "C"; "CA"; "CAT" ]} ["DOG"; "CAT"]) =
  prefixes (searcher (grid_of [["C"; "A"; "T"]]) {[ "CAT" ]}
                     {[ "C"; "CA"; "CAT" ]} ["DOG"]) ∧
  solution_words (searcher (grid_of [["C"; "A"; "T"]]) {[ "CAT" ]}
                           {[ "C"; "CA"; "CAT" ]} ["DOG"])
  `prefix_of`
  solution_words (searcher (grid_of [["C"; "A"; "T"]]) {[ "CAT" ]}
                           {[ "C"; "CA"; "CAT" ]} ["DOG"; "CAT"]).
Proof.
  apply (dfs_only_appends 3 _ 0 0 "" {[ (0, 0) ]} 1 3 _ {[ (0, 0) ]}).
  vm_compute. reflexivity.
Defined.

(** X7. [_solve] starts from an empty solution list: run again on the object
    that [Boggle(grid, dictionary)] returned for valid inputs, it returns
    that same object, so solving twice neither duplicates nor reorders
    words. *)
Theorem solve_again_same_object g d :
  _validateGrid g = Ok true → _validateDictionary d = Ok true →
  ∃ self, Boggle_new g d = Ok self ∧ _solve (stack_bound g) self = Ok self.
Proof.
  intros Hg Hd. destruct (validateDictionary_true d Hd) as (ws & -> & Hws).
  destruct (Boggle_valid true g ws Hg Hws) as (sol & Hnew & _).
  eexists. split; [exact Hnew|].
  unfold init_with in Hnew.
  rewrite (setGrid_valid _ g Hg), Ok_bind in Hnew.
  rewrite (setDictionary_words_of _ ws Hws), Ok_bind in Hnew.
  cbn [grid dictionary prefixes solution_words] in Hnew.
  unfold _solve, stack_bound in *. rewrite solve_with_searcher.
  change (solve_with true (S (S (Z.to_nat (grid_rows g) * Z.to_nat (grid_cols g))))
            {| grid := Some g;
               dictionary := Some (list_to_set (upper <$> ws));
               prefixes := build_prefixes (list_to_set (upper <$> ws));
               solution_words := [] |})
    with (solve_with true (S (S (Z.to_nat (grid_rows g) * Z.to_nat (grid_cols g))))
            (searcher g (list_to_set (upper <$> ws))
                      (build_prefixes (list_to_set (upper <$> ws))) [])) in Hnew.
  by rewrite solve_with_searcher in Hnew.
Qed.

Lemma solve_again_same_object_witness :
  ∃ self,
    Boggle_new (grid_of [["C"; "A"; "T"]]) (words_of ["cat"; "tac"]) = Ok self ∧
    _solve (stack_bound (grid_of [["C"; "A"; "T"]])) self = Ok self.
Proof. apply solve_again_same_object; reflexivity. Defined.

(** X8. Replacing grid and dictionary through the setters and solving again
    is the same as constructing afresh: for valid inputs, [setGrid] and
    [setDictionary] on a constructed object followed by [_solve] give
    exactly the outcome of [Boggle] on the new grid and dictionary; neither
    the old prefix set nor the old solution list leaks into it. *)
Theorem set_then_solve_as_new g d g' d' :
  _validateGrid g = Ok true → _validateDictionary d = Ok true →
  _validateGrid g' = Ok true → _validateDictionary d' = Ok true →
  ∃ self self1 self2,
    Boggle_new g d = Ok self ∧
    setGrid self g' = Ok self1 ∧
    setDictionary self1 d' = Ok self2 ∧
    _solve (stack_bound g') self2 = Boggle_new g' d'.
Proof.
  intros Hg Hd Hg' Hd'.
  destruct (validateDictionary_true d Hd) as (ws & -> & Hws).
  destruct (validateDictionary_true d' Hd') as (ws' & -> & Hws').
  destruct (Boggle_valid true g ws Hg Hws) as (sol & Hnew & _).
  eexists. eexists. eexists. split; [exact Hnew|].
  split; [by apply setGrid_valid|].
  split; [by apply setDictionary_words_of|].
  cbn [grid dictionary prefixes solution_words searcher].
  unfold Boggle_new, __init__, init_with.
  rewrite (setGrid_valid _ g' Hg'), Ok_bind.
  rewrite (setDictionary_words_of _ ws' Hws'), Ok_bind.
  cbn [grid dictionary prefixes solution_words].
  unfold _solve, stack_bound.
  change {| grid := Some g';
            dictionary := Some (list_to_set (upper <$> ws'));
            prefixes := build_prefixes (list_to_set (upper <$> ws'));
            solution_words := sol |}
    with (searcher g' (list_to_set (upper <$> ws'))
                   (build_prefixes (list_to_set (upper <$> ws'))) sol).
  change {| grid := Some g';
            dictionary := Some (list_to_set (upper <$> ws'));
            prefixes := build_prefixes (list_to_set (upper <$> ws'));
            solution_words := [] |}
    with (searcher g' (list_to_set (upper <$> ws'))
                   (build_prefixes (list_to_set (upper <$> ws'))) []).
  by rewrite !solve_with_searcher.
Qed.

Lemma set_then_solve_as_new_witness :
  ∃ self self1 self2,
    Boggle_new (grid_of [["C"; "A"; "T"]]) (words_of ["cat"; "tac"]) = Ok self ∧
    setGrid self (grid_of [["D"; "O"]; ["G"; "S"]]) = Ok self1 ∧
    setDictionary self1 (words_of ["dog"; "gods"]) = Ok self2 ∧
    _solve (stack_bound (grid_of [["D"; "O"]; ["G"; "S"]])) self2 =
    Boggle_new (grid_of [["D"; "O"]; ["G"; "S"]]) (words_of ["dog"; "gods"]).
Proof. apply set_then_solve_as_new; reflexivity. Defined.

(** ** Validation, exactly *)

Lemma validate_rows_returns n rows : ∃ b, validate_rows n rows = Ok b.
Proof.
  induction rows as [|row rows IH]; simpl; [by eexists|].
  destruct row as [| | | |items]; simpl; try by eexists.
  destruct (negb (Z.of_nat (length items) =? n)); [by eexists|].
  destruct (negb (forallb isinstance_str items)); [by eexists|done].
Qed.

(** how [_validateGrid] ends on each kind of value *)
Lemma validateGrid_cases g :
  (∃ b, _validateGrid g = Ok b) ∧
    (∀ v rest, g = PyList (v :: rest) → sized v = true) ∨
  _validateGrid g = Raise TypeError ∧
    ∃ v rest, g = PyList (v :: rest) ∧ sized v = false.
Proof.
  destruct g as [|b|n|s|items].
  - left. split; [by eexists|done].
  - left. split; [unfold _validateGrid; simpl; destruct b; by eexists|done].
  - left. split; [|done]. unfold _validateGrid. simpl.
    destruct (n =? 0); by eexists.
  - left. split; [|done]. unfold _validateGrid. simpl.
    destruct (String.eqb s ""); by eexists.
  - destruct items as [|v rest]; [left; split; [by eexists|done]|].
    unfold _validateGrid. simpl. unfold seq_getitem. simpl.
    destruct (Z.ltb_spec 0 (Z.pos (Pos.of_succ_nat (length rest)))); [|lia].
    simpl. destruct v as [|b|n|s|cells]; simpl.
    + right. split; [done|]. by eexists _, _.
    + right. split; [done|]. by eexists _, _.
    + right. split; [done|]. by eexists _, _.
    + left. split; [by eexists|]. by intros ? ? [= <- _].
    + left. split; [|by intros ? ? [= <- _]].
      destruct (negb (Z.of_nat (length cells) =? Z.of_nat (length cells)));
        [by eexists|].
      destruct (negb (forallb isinstance_str cells)); [by eexists|].
      apply validate_rows_returns.
Qed.

(** X9. [_validateGrid] returns [True] exactly on the non-empty lists of
    lists of strings whose rows all have one length. *)
Theorem validateGrid_accepts_exactly g :
  _validateGrid g = Ok true ↔
  ∃ tiles cols, g = grid_of tiles ∧ tiles ≠ [] ∧
                Forall (λ row : list string, length row = cols) tiles.
Proof.
  split; [apply validateGrid_true|].
  intros (tiles & cols & -> & Hne & Hall). by eapply validateGrid_grid_of.
Qed.

(** X10. [Boggle(grid, dictionary)] either returns an object or raises
    [TypeError], and it raises exactly when the grid is a non-empty list
    whose first element has no [len()] (the row length is read before any
    row is checked), whatever the dictionary. *)
Theorem construction_raises_exactly g d :
  (∃ self, Boggle_new g d = Ok self) ∧
    ¬ (∃ v rest, g = PyList (v :: rest) ∧ sized v = false) ∨
  Boggle_new g d = Raise TypeError ∧
    ∃ v rest, g = PyList (v :: rest) ∧ sized v = false.
Proof.
  unfold Boggle_new, __init__.
  destruct (validateGrid_cases g) as [[[valid Hg] Hsized]|[Hg Hbad]].
  - left. split.
    + rewrite (init_with_setGrid _ _ _ _ _ Hg).
      destruct (setDictionary_total
        {| grid := if valid then Some g else None; dictionary := None;
           prefixes := ∅; solution_words := [] |} d)
        as (self & Hset & Hgrid & _ & Hdict).
      simpl in Hgrid. destruct valid.
      * destruct Hdict as [Hnone|(ws & -> & Hws)].
        { exists self. by rewrite Hset, Ok_bind, Hgrid, Hnone. }
        destruct (Boggle_valid true g ws Hg Hws) as (sol & Hnew & _).
        rewrite (init_with_setGrid _ _ _ _ _ Hg) in Hnew. eauto.
      * exists self. by rewrite Hset, Ok_bind, Hgrid.
    + intros (v & rest & -> & Hv). specialize (Hsized v rest eq_refl).
      congruence.
  - right. split; [|done]. unfold init_with, setGrid. by rewrite Hg.
Qed.

(** X11. [_validateDictionary] never raises, and it returns [True] exactly
    on the non-empty lists of strings. *)
Theorem validateDictionary_accepts_exactly d :
  (∃ b, _validateDictionary d = Ok b) ∧
  (_validateDictionary d = Ok true ↔ ∃ ws, d = words_of ws ∧ ws ≠ []).
Proof.
  split; [apply validateDictionary_returns|].
  split; [apply validateDictionary_true|].
  intros (ws & -> & Hws). by apply validateDictionary_words_of.
Qed.

(** X12. After a successful [setDictionary] the prefix set holds exactly the
    non-empty initial segments of the stored words; in particular it never
    holds the empty string, and every initial segment of a prefix is a
    prefix. *)
Theorem prefixes_are_initial_segments self d :
  _validateDictionary d = Ok true →
  ∃ self' D,
    setDictionary self d = Ok self' ∧ dictionary self' = Some D ∧
    ∀ x, x ∈ prefixes self' ↔ (x ≠ "" ∧ ∃ z, x +:+ z ∈ D).
Proof.
  intros Hd. destruct (validateDictionary_true d Hd) as (ws & -> & Hws).
  eexists. eexists. split; [by apply setDictionary_words_of|].
  split; [done|]. simpl. intros x. split.
  - intros (word & n & Hword & Hn & ->)%elem_of_build_prefixes. split.
    + apply str_take_nonempty; [lia|]. intros ->. simpl in Hn. lia.
    + destruct (str_take_split n word) as [t Ht]. exists t. by rewrite <- Ht.
  - intros (Hx & z & Hz). by eapply build_prefixes_closed.
Qed.

Lemma prefixes_are_initial_segments_witness :
  ∃ self' D,
    setDictionary {| grid := None; dictionary := None; prefixes := ∅;
                     solution_words := [] |} (words_of ["cat"; ""; "Dog"])
      = Ok self' ∧
    dictionary self' = Some D ∧
    ∀ x, x ∈ prefixes self' ↔ (x ≠ "" ∧ ∃ z, x +:+ z ∈ D).
Proof. apply prefixes_are_initial_segments. reflexivity. Defined.

(** ** Neighbours *)

Lemma filter_in_bounds_cons rows cols x l :
  filter (λ c, in_bounds_b rows cols c = true) (x :: l) =
  (if in_bounds_b rows cols x then [x] else []) ++
  filter (λ c, in_bounds_b rows cols c = true) l.
Proof.
  rewrite filter_cons. destruct (decide _) as [H|H].
  - by rewrite H.
  - by destruct (in_bounds_b rows cols x).
Qed.

(** the two nested loops keep, in order, the cells around that pass the
    bounds test *)
Lemma getNeighbors_filter row col rows cols :
  _getNeighbors row col rows cols =
  filter (λ c, in_bounds_b rows cols c = true) (around row col).
Proof.
  unfold around. rewrite !filter_in_bounds_cons, filter_nil.
  unfold _getNeighbors, in_bounds_b. cbn [fst snd].
  rewrite !bind_cons. cbn [mbind list_bind].
  change (0 =? 0) with true. change (-1 =? 0) with false.
  change (1 =? 0) with false. cbn [andb].
  rewrite !Z.add_0_r, !app_nil_r, !app_nil_l.
  rewrite <- !app_assoc. reflexivity.
Qed.

Lemma NoDup_around row col : NoDup (around row col).
Proof.
  unfold around.
  repeat (apply NoDup_cons; split;
    [rewrite ?elem_of_cons, elem_of_nil; intros H;
     repeat (destruct H as [H|H]; [injection H; lia|]); done|]).
  apply NoDup_nil_2.
Qed.

(** X13. [_getNeighbors] returns exactly the cells of the grid that differ
    from the given cell by at most one row and one column, without the
    cell itself. *)
Theorem getNeighbors_adjacent_in_bounds row col rows cols n :
  n ∈ _getNeighbors row col rows cols ↔
  adjacent (row, col) n ∧ in_bounds rows cols n.
Proof. apply elem_of_getNeighbors. Qed.

(** X14. [_getNeighbors] never lists a cell twice and never lists more than
    8 cells; for a cell with a full ring around it inside the grid it lists
    all 8, row by row. *)
Theorem getNeighbors_distinct_at_most_8 row col rows cols :
  NoDup (_getNeighbors row col rows cols) ∧
  (length (_getNeighbors row col rows cols) ≤ 8)%nat ∧
  (1 ≤ row < rows - 1 → 1 ≤ col < cols - 1 →
   _getNeighbors row col rows cols = around row col).
Proof.
  rewrite getNeighbors_filter. split; [|split].
  - apply NoDup_filter, NoDup_around.
  - apply (length_filter (λ c, in_bounds_b rows cols c = true) (around row col)).
  - intros Hrow Hcol. unfold around.
    rewrite !filter_in_bounds_cons, filter_nil. unfold in_bounds_b.
    cbn [fst snd].
    repeat match goal with
    | |- context [if ?b then _ else _] =>
        let Hb := fresh in
        assert (b = true) as Hb
          by (repeat (apply andb_true_intro; split); lia);
        rewrite Hb; clear Hb
    end.
    reflexivity.
Qed.

Lemma getNeighbors_distinct_at_most_8_witness :
  NoDup (_getNeighbors 1 1 3 3) ∧
  (length (_getNeighbors 1 1 3 3) ≤ 8)%nat ∧
  _getNeighbors 1 1 3 3 = around 1 1.
Proof.
  destruct (getNeighbors_distinct_at_most_8 1 1 3 3) as (Hnd & Hlen & Hall).
  split; [exact Hnd|]. split; [exact Hlen|]. apply Hall; lia.
Defined.

(** X15. Within the grid, being a neighbour is symmetric: a cell listed for
    a cell of the grid has that cell in its own list. *)
Theorem getNeighbors_symmetric row col rows cols n :
  in_bounds rows cols (row, col) →
  n ∈ _getNeighbors row col rows cols →
  (row, col) ∈ _getNeighbors n.1 n.2 rows cols.
Proof.
  intros Hin [(Hr & Hc & Hne) Hn]%elem_of_getNeighbors.
  apply elem_of_getNeighbors. split; [|done].
  destruct n as [r c]. unfold adjacent. simpl in *.
  split; [lia|]. split; [lia|]. congruence.
Qed.

Lemma getNeighbors_symmetric_witness :
  (0, 0) ∈ _getNeighbors (1, 1).1 (1, 1).2 2 2.
Proof.
  apply (getNeighbors_symmetric 0 0 2 2 (1, 1)).
  - by vm_compute.
  - vm_compute. set_solver.
Defined.

(** ** The case of the tiles *)

Lemma for_each_map {A St : Type} (I : St → Prop) (h : St → St)
    (b1 b2 : A → St → outcome St) (l : list A) :
  (∀ x s, I s → b2 x (h s) = outcome_map h (b1 x s)) →
  (∀ x s s', I s → b1 x s = Ok s' → I s') →
  ∀ s, I s → for_each l b2 (h s) = outcome_map h (for_each l b1 s).
Proof.
  intros Hmap Hinv. induction l as [|x l IH]; intros s Hs; [done|].
  simpl. rewrite (Hmap x s Hs).
  destruct (b1 x s) as [s'| |] eqn:Hx; [|done..]. simpl.
  apply IH. by eapply Hinv.
Qed.

Lemma record_word_regrid g self new_word :
  record_word (regrid g self) new_word =
  outcome_map (regrid g) (record_word self new_word).
Proof.
  unfold record_word, self_dictionary. simpl.
  destruct (3 <=? str_len new_word); [|done].
  destruct (dictionary self) as [D|]; [|done]. simpl.
  destruct (bool_decide (new_word ∈ D)); [|done].
  by destruct (bool_decide (new_word ∉ solution_words self)).
Qed.

(** the search reads the grid only through the expanded tiles *)
Lemma dfs_with_regrid prune g g' :
  (∀ r c, tile_at g' r c = tile_at g r c) →
  ∀ fuel self r c w V rows cols,
    grid self = Some g →
    dfs_with prune fuel (regrid g' self) r c w V rows cols =
    outcome_map (λ st, (regrid g' st.1, st.2))
                (dfs_with prune fuel self r c w V rows cols).
Proof.
  intros Htiles. induction fuel as [|fuel IH];
    intros self r c w V rows cols Hg; [done|].
  rewrite !dfs_with_S. unfold self_grid at 2. rewrite Hg, Ok_bind.
  change (self_grid (regrid g' self)) with (Ok g' : outcome pyval).
  rewrite Ok_bind, Htiles.
  destruct (tile_at g r c) as [tile| |]; [|done..]. rewrite !Ok_bind.
  cbv zeta. change (prefixes (regrid g' self)) with (prefixes self).
  destruct (prune && negb (bool_decide (w +:+ tile ∈ prefixes self)));
    [done|].
  rewrite record_word_regrid.
  destruct (record_word self (w +:+ tile)) as [self1| |] eqn:Hrec; [|done..].
  simpl outcome_map. rewrite !Ok_bind.
  apply record_word_appends in Hrec. destruct Hrec as (Hg1 & _).
  change (regrid g' self1, V)
    with ((λ st : Boggle * gset (Z * Z), (regrid g' st.1, st.2)) (self1, V)).
  apply (for_each_map (λ st, grid st.1 = Some g)
           (λ st, (regrid g' st.1, st.2))).
  - intros n [s V1] Hs. simpl in Hs. cbn [fst snd].
    destruct (bool_decide (n ∉ V1)); [|done].
    cbv zeta. rewrite (IH s _ _ _ _ _ _ Hs).
    destruct (dfs_with prune fuel s n.1 n.2 (w +:+ tile) ({[n]} ∪ V1) rows cols)
      as [[s2 V2]| |]; [|done..].
    simpl. by destruct (set_remove n V2).
  - intros n [s V1] [s' V'] Hs Hbody. simpl in *.
    destruct (bool_decide (n ∉ V1)); [|by injection Hbody as <- _].
    apply bind_Ok in Hbody. destruct Hbody as ([s3 V3] & Hcall & Hrm).
    apply dfs_with_appends in Hcall. destruct Hcall as (Hg3 & _).
    apply bind_Ok in Hrm. destruct Hrm as (V4 & _ & Hrm).
    simpl in Hrm. injection Hrm as <- _. congruence.
  - simpl. congruence.
Qed.

Lemma solve_with_regrid prune g g' fuel self :
  (∀ r c, tile_at g' r c = tile_at g r c) →
  py_len g' = py_len g →
  (first ← py_getitem g' 0; py_len first) =
    (first ← py_getitem g 0; py_len first) →
  grid self = Some g →
  solve_with prune fuel (regrid g' self) =
  outcome_map (regrid g') (solve_with prune fuel self).
Proof.
  intros Htiles Hlen Hcols Hg. destruct fuel as [|fuel]; [done|].
  unfold solve_with. rewrite Hg.
  change (grid (regrid g' self)) with (Some g').
  change (dictionary (regrid g' self)) with (dictionary self).
  destruct (dictionary self) as [D|]; [|done]. cbv zeta.
  rewrite Hlen. destruct (py_len g) as [rows| |]; [|done..]. rewrite !Ok_bind.
  assert (∀ (gg : pyval) (k : Z → outcome Boggle),
            (first ← py_getitem gg 0; cols ← py_len first; k cols) =
            ((first ← py_getitem gg 0; py_len first) ≫= k)) as Hassoc.
  { intros gg k. by destruct (py_getitem gg 0). }
  rewrite (Hassoc g'), Hcols, <- (Hassoc g).
  destruct (py_getitem g 0) as [first| |]; [|done..]. rewrite !Ok_bind.
  destruct (py_len first) as [cols| |]; [|done..]. rewrite !Ok_bind.
  change (with_solution (regrid g' self) []) with (regrid g' (with_solution self [])).
  apply (for_each_map (λ s, grid s = Some g) (regrid g')); [| |done].
  - intros row s Hs.
    apply (for_each_map (λ s, grid s = Some g) (regrid g')); [| |done].
    + intros col s1 Hs1. cbv zeta.
      rewrite (dfs_with_regrid prune g g' Htiles fuel s1 _ _ _ _ _ _ Hs1).
      by destruct (dfs_with prune fuel s1 row col "" ({[(row, col)]} ∪ ∅) rows cols).
    + intros col s1 s2 Hs1 (st & Hcall & Hst)%bind_Ok.
      injection Hst as <-. destruct st as [s3 V3].
      apply dfs_with_appends in Hcall. destruct Hcall as (Hg3 & _).
      simpl. congruence.
  - intros row s s' Hs Hrow.
    apply (for_each_Ok_inv (λ s, grid s = Some g)) in Hrow; [done| |done].
    intros col s1 s2 Hs1 (st & Hcall & Hst)%bind_Ok.
    injection Hst as <-. destruct st as [s3 V3].
    apply dfs_with_appends in Hcall. destruct Hcall as (Hg3 & _).
    simpl. congruence.
Qed.

Lemma setDictionary_regrid g self d :
  setDictionary (regrid g self) d = outcome_map (regrid g) (setDictionary self d).
Proof.
  unfold setDictionary. destruct (_validateDictionary d) as [valid| |]; [|done..].
  rewrite !Ok_bind. destruct valid; simpl; [|done].
  destruct (py_iter d) as [entries| |]; [|done..]. rewrite !Ok_bind.
  by destruct (mapM py_upper entries).
Qed.

Lemma seq_getitem_fmap {A B : Type} (f : A → B) (l : list A) (i : Z) :
  seq_getitem (f <$> l) i = outcome_map f (seq_getitem l i).
Proof.
  unfold seq_getitem. rewrite length_fmap.
  destruct ((0 <=? (if i <? 0 then i + Z.of_nat (length l) else i)) &&
            ((if i <? 0 then i + Z.of_nat (length l) else i)
             <? Z.of_nat (length l))); [|done].
  rewrite list_lookup_fmap. by destruct (l !! _).
Qed.

Lemma expandTile_upper s : _expandTile (PyStr (upper s)) = _expandTile (PyStr s).
Proof. unfold _expandTile. simpl. by rewrite upper_idemp. Qed.

Lemma grid_of_upper_tiles tiles :
  grid_of (upper_tiles tiles) =
  PyList ((λ row : list string, PyList (PyStr <$> (upper <$> row))) <$> tiles).
Proof. unfold grid_of, upper_tiles. by rewrite <- list_fmap_compose. Qed.

Lemma tile_at_upper_tiles tiles r c :
  tile_at (grid_of (upper_tiles tiles)) r c = tile_at (grid_of tiles) r c.
Proof.
  rewrite grid_of_upper_tiles. unfold tile_at, grid_of. simpl.
  rewrite !seq_getitem_fmap.
  destruct (seq_getitem tiles r) as [row| |]; [|done..]. simpl.
  rewrite <- list_fmap_compose, !seq_getitem_fmap.
  destruct (seq_getitem row c) as [s| |]; [|done..]. simpl.
  apply expandTile_upper.
Qed.

Lemma fmap_PyStr_inj (l l' : list string) : PyStr <$> l = PyStr <$> l' → l = l'.
Proof.
  revert l'. induction l as [|x l IH]; intros [|y l']; simpl; try done.
  intros [= -> H]. f_equal. by apply IH.
Qed.

Lemma grid_of_inj tiles tiles' : grid_of tiles = grid_of tiles' → tiles = tiles'.
Proof.
  unfold grid_of. intros [= H]. revert tiles' H.
  induction tiles as [|row tiles IH]; intros [|row' tiles']; simpl; try done.
  intros [= Hrow H]. f_equal; [by apply fmap_PyStr_inj|by apply IH].
Qed.

(** X16. The case of the tiles does not matter: a valid board and the same
    board with every tile uppercased give the same list of found words, in
    the same order, for every dictionary. *)
Theorem tiles_case_irrelevant tiles d :
  _validateGrid (grid_of tiles) = Ok true →
  found_words (grid_of (upper_tiles tiles)) d = found_words (grid_of tiles) d.
Proof.
  intros Hg.
  destruct (validateGrid_true _ Hg) as (tiles0 & cols & Heq & Hne & Hall).
  assert (_validateGrid (grid_of (upper_tiles tiles)) = Ok true) as Hg'.
  { assert (tiles0 = tiles) as ->.
    { symmetry. by apply grid_of_inj. }
    apply (validateGrid_grid_of _ cols).
    - unfold upper_tiles. by destruct tiles.
    - unfold upper_tiles. rewrite Forall_fmap.
      eapply Forall_impl; [exact Hall|]. simpl. intros row <-.
      apply length_fmap. }
  assert (py_len (grid_of (upper_tiles tiles)) = py_len (grid_of tiles)) as Hlen.
  { unfold grid_of, upper_tiles. simpl. by rewrite !length_fmap. }
  assert ((first ← py_getitem (grid_of (upper_tiles tiles)) 0; py_len first) =
          (first ← py_getitem (grid_of tiles) 0; py_len first)) as Hcols.
  { rewrite grid_of_upper_tiles. unfold grid_of. simpl.
    rewrite !seq_getitem_fmap.
    destruct (seq_getitem tiles 0) as [row| |]; [|done..]. simpl.
    by rewrite !length_fmap. }
  assert (stack_bound (grid_of (upper_tiles tiles)) = stack_bound (grid_of tiles))
    as Hbound.
  { unfold stack_bound, grid_rows, grid_cols. by rewrite Hlen, Hcols. }
  unfold found_words, Boggle_new, __init__. rewrite Hbound.
  rewrite (init_with_setGrid _ _ _ _ _ Hg), (init_with_setGrid _ _ _ _ _ Hg').
  change {| grid := Some (grid_of (upper_tiles tiles)); dictionary := None;
            prefixes := ∅; solution_words := [] |}
    with (regrid (grid_of (upper_tiles tiles))
            {| grid := Some (grid_of tiles); dictionary := None;
               prefixes := ∅; solution_words := [] |}).
  rewrite setDictionary_regrid.
  destruct (setDictionary_total
    {| grid := Some (grid_of tiles); dictionary := None; prefixes := ∅;
       solution_words := [] |} d) as (self & -> & Hgrid & _).
  simpl outcome_map. rewrite !Ok_bind. simpl in Hgrid. rewrite Hgrid.
  change (grid (regrid (grid_of (upper_tiles tiles)) self))
    with (Some (grid_of (upper_tiles tiles))).
  change (dictionary (regrid (grid_of (upper_tiles tiles)) self))
    with (dictionary self).
  destruct (dictionary self) as [D|]; [|done].
  rewrite (solve_with_regrid true (grid_of tiles) (grid_of (upper_tiles tiles)));
    [|apply tile_at_upper_tiles|done..].
  by destruct (solve_with true (stack_bound (grid_of tiles)) self).
Qed.

Lemma tiles_case_irrelevant_witness :
  found_words (grid_of (upper_tiles [["c"; "a"; "t"]; ["Qu"; "i"; "T"]]))
              (words_of ["cat"; "quit"]) =
  found_words (grid_of [["c"; "a"; "t"]; ["Qu"; "i"; "T"]])
              (words_of ["cat"; "quit"]).
Proof. apply tiles_case_irrelevant. reflexivity. Defined.

(** ** The demonstration and the remaining scenarios of the test suite *)

Example main_prints : main = Ok ["ABEF"; "AFJIEEB"; "DGKD"].
Proof. vm_compute. reflexivity. Qed.

Example four_by_four :
  found_words (grid_of [["A"; "B"; "C"; "D"]; ["E"; "F"; "G"; "H"];
                        ["I"; "J"; "K"; "L"]; ["M"; "N"; "O"; "P"]])
              (words_of ["ABEF"; "ABEFJI"; "FGH"])
  = Ok ["ABEF"; "ABEFJI"; "FGH"].
Proof. vm_compute. reflexivity. Qed.

Example st_tile :
  found_words (grid_of [["St"; "A"; "R"]; ["E"; "P"; "O"]; ["X"; "Y"; "Z"]])
              (words_of ["STAR"; "STEP"; "STARE"]) = Ok ["STAR"; "STEP"].
Proof. vm_compute. reflexivity. Qed.

Example ie_tile :
  found_words (grid_of [["A"; "B"; "C"; "D"]; ["E"; "F"; "G"; "H"];
                        ["Ie"; "J"; "K"; "L"]; ["A"; "B"; "C"; "D"]])
              (words_of ["ABEF"; "AFJIEEB"; "DGKD"])
  = Ok ["ABEF"; "AFJIEEB"; "DGKD"].
Proof. vm_compute. reflexivity. Qed.

Example minimum_word_length :
  found_words (grid_of [["A"; "B"]; ["C"; "D"]])
              (words_of ["AB"; "ABC"; "ABCD"; "A"]) = Ok ["ABC"; "ABCD"].
Proof. vm_compute. reflexivity. Qed.

Example no_valid_words :
  found_words (grid_of [["A"; "B"]; ["C"; "D"]])
              (words_of ["XYZ"; "QWERTY"; "MNOP"]) = Ok [].
Proof. vm_compute. reflexivity. Qed.

Example non_square_grid :
  found_words (grid_of [["A"; "B"; "C"; "D"]; ["E"; "F"; "G"; "H"];
                        ["I"; "J"; "K"; "L"]])
              (words_of ["ABEF"; "FGH"; "EFGHKJ"])
  = Ok ["ABEF"; "EFGHKJ"; "FGH"].
Proof. vm_compute. reflexivity. Qed.

Example empty_grid :
  found_words (grid_of []) (words_of ["CAT"; "DOG"]) = Ok [].
Proof. vm_compute. reflexivity. Qed.
